(** * ts-path-alias-to-relative: a shallow embedding of [src/index.js]

    The development models the alias table builder ([preparePaths]), the
    import scanner ([findMatches]), the path rewriter ([replaceAliases]) and
    the batch loop ([replaceImports]) of [src/index.js], together with the
    parts of the JavaScript and Node.js run-time they call: string
    primitives, a backtracking regular-expression matcher, the POSIX flavour
    of the [path] module and a synchronous file system.

    JavaScript strings are sequences of UTF-16 code units.  Here a string is
    a [list ascii]: every code unit of the modelled texts is below 256. *)

From Stdlib Require Import Ascii String.
From Stdlib Require Import List Bool Arith ZArith Lia.
From Stdlib Require Import Permutation Sorted DecimalString.
Import ListNotations.

(* ================================================================== *)
(** ** JavaScript strings *)
(* ================================================================== *)

Definition jsstring := list ascii.

(** [js "abc"] is the JavaScript string literal ['abc']. *)
Definition js (s : string) : jsstring := list_ascii_of_string s.

Definition ascii_eqb (a b : ascii) : bool := Ascii.eqb a b.

Fixpoint str_eqb (s t : jsstring) : bool :=
  match s, t with
  | [], [] => true
  | a :: s', b :: t' => ascii_eqb a b && str_eqb s' t'
  | _, _ => false
  end.

(** [starts_with p s]: [p] is a prefix of [s]. *)
Fixpoint starts_with (p s : jsstring) : bool :=
  match p, s with
  | [], _ => true
  | a :: p', b :: s' => ascii_eqb a b && starts_with p' s'
  | _ :: _, [] => false
  end.

(** [String.prototype.indexOf(pat)]: the index of the first occurrence of
    [pat], or [None] for JavaScript's [-1]. *)
Fixpoint indexOf (pat s : jsstring) : option nat :=
  if starts_with pat s then Some 0
  else match s with
       | [] => None
       | _ :: s' => option_map S (indexOf pat s')
       end.

(** [String.prototype.includes(pat)]. *)
Definition includes (s pat : jsstring) : bool :=
  match indexOf pat s with Some _ => true | None => false end.

(** [GetSubstitution] of ECMA-262 for a string search value: there are no
    captures, so of the dollar patterns only [$$], [$&], [$`] and [$']
    are substituted; [$1] and the like stay as they are. *)
Fixpoint get_substitution (matched before after repl : jsstring) : jsstring :=
  match repl with
  | [] => []
  | c :: r =>
      if ascii_eqb c "$" then
        match r with
        | d :: r' =>
            if ascii_eqb d "$" then "$"%char :: get_substitution matched before after r'
            else if ascii_eqb d "&" then matched ++ get_substitution matched before after r'
            else if ascii_eqb d "`" then before ++ get_substitution matched before after r'
            else if ascii_eqb d "'" then after ++ get_substitution matched before after r'
            else c :: get_substitution matched before after r
        | [] => [c]
        end
      else c :: get_substitution matched before after r
  end.

(** [s.replace(pat, repl)] with a string [pat]: only the first occurrence
    of [pat] is replaced; without an occurrence [s] is returned. *)
Definition js_replace (s pat repl : jsstring) : jsstring :=
  match indexOf pat s with
  | None => s
  | Some i =>
      let before := firstn i s in
      let after := skipn (i + length pat) s in
      before ++ get_substitution pat before after repl ++ after
  end.

(** [s.replace(/\*/g, '.*')]: every star becomes dot-star. *)
Fixpoint replace_stars (s : jsstring) : jsstring :=
  match s with
  | [] => []
  | c :: s' =>
      if ascii_eqb c "*" then "."%char :: "*"%char :: replace_stars s'
      else c :: replace_stars s'
  end.

(* ================================================================== *)
(** ** Regular expressions *)
(* ================================================================== *)

(** Character classes of the two regular expressions of the program. *)
Inductive charclass : Type :=
| CChar (c : ascii)                 (* a pattern character *)
| CDot                              (* [.] : anything but a line terminator *)
| CWord                             (* [\w] *)
| CSpace                            (* [\s] *)
| COneOf (l : jsstring)             (* listed characters *)
| CUnion (a b : charclass)
| CNot (a : charclass).

Definition in_range (lo hi : nat) (c : ascii) : bool :=
  (lo <=? nat_of_ascii c) && (nat_of_ascii c <=? hi).

Definition is_line_terminator (c : ascii) : bool :=
  (nat_of_ascii c =? 10) || (nat_of_ascii c =? 13).

Definition is_word_char (c : ascii) : bool :=
  in_range 97 122 c || in_range 65 90 c || in_range 48 57 c || (nat_of_ascii c =? 95).

(** White space and line terminators below 256: TAB, LF, VT, FF, CR, SP
    and NBSP. *)
Definition is_space (c : ascii) : bool :=
  in_range 9 13 c || (nat_of_ascii c =? 32) || (nat_of_ascii c =? 160).

Fixpoint class_mem (cc : charclass) (c : ascii) : bool :=
  match cc with
  | CChar d => ascii_eqb d c
  | CDot => negb (is_line_terminator c)
  | CWord => is_word_char c
  | CSpace => is_space c
  | COneOf l => existsb (ascii_eqb c) l
  | CUnion a b => class_mem a c || class_mem b c
  | CNot a => negb (class_mem a c)
  end.

(** A matcher state: the number of code units before the current position,
    the text from the current position on, and the texts captured so far. *)
Record mstate : Type := MState {
  pos : nat;
  rest : jsstring;
  caps : list jsstring
}.

Inductive regex : Type :=
| REmpty
| RClass (cc : charclass)
| RSeq (r1 r2 : regex)
| RStar (r : regex)                 (* greedy [r*] *)
| RGroup (r : regex)                (* capturing parentheses *)
| RBol                              (* [^] without the m flag *)
| REol.                             (* [$] without the m flag *)

(** [r+] on an atom that consumes a character is [r] followed by [r*]. *)
Definition RPlus (r : regex) : regex := RSeq r (RStar r).

(** The characters of a literal, in sequence. *)
Fixpoint RLit (s : jsstring) : regex :=
  match s with
  | [] => REmpty
  | c :: s' => RSeq (RClass (CChar c)) (RLit s')
  end.

(** What a group records when it closes at [y], having opened at [x]. *)
Definition close_group (x y : mstate) : mstate :=
  MState (pos y) (rest y) (caps y ++ [firstn (pos y - pos x) (rest x)]).

Section Matcher.
Variable R : Type.

(** The body of the greedy star: try one more iteration, which has to
    consume something, then the continuation; [n] bounds the iterations. *)
Fixpoint star_loop (step : mstate -> (mstate -> option R) -> option R)
    (k : mstate -> option R) (n : nat) (x : mstate) : option R :=
  match n with
  | 0 => k x
  | S n' =>
      match step x (fun y => if length (rest y) <? length (rest x)
                             then star_loop step k n' y else None) with
      | Some v => Some v
      | None => k x
      end
  end.

(** The backtracking matcher of ECMA-262 in continuation-passing style:
    [rmatch r x k] tries the ways [r] can match at [x], in priority
    order, and returns the first for which the continuation succeeds. *)
Fixpoint rmatch (r : regex) (x : mstate) (k : mstate -> option R) : option R :=
  match r with
  | REmpty => k x
  | RClass cc =>
      match rest x with
      | c :: s' => if class_mem cc c then k (MState (S (pos x)) s' (caps x)) else None
      | [] => None
      end
  | RSeq r1 r2 => rmatch r1 x (fun y => rmatch r2 y k)
  | RStar r1 => star_loop (rmatch r1) k (length (rest x)) x
  | RGroup r1 => rmatch r1 x (fun y => k (close_group x y))
  | RBol => if pos x =? 0 then k x else None
  | REol => match rest x with [] => k x | _ :: _ => None end
  end.
End Matcher.
Arguments star_loop {R} step k n x.
Arguments rmatch {R} r x k.

(** One occurrence found by a regular expression: the index it starts at,
    the matched text and the captured texts. *)
Record occurrence : Type := Occurrence {
  occ_index : nat;
  occ_text : jsstring;
  occ_caps : list jsstring;
  occ_end : mstate
}.

(** [RegExpBuiltinExec] from index [p], where [s] is the text from [p] on:
    the first start position at which the matcher succeeds. *)
Fixpoint regex_exec (r : regex) (p : nat) (s : jsstring) : option occurrence :=
  match rmatch r (MState p s []) (fun y => Some y) with
  | Some y => Some (Occurrence p (firstn (pos y - p) s) (caps y) y)
  | None =>
      match s with
      | [] => None
      | _ :: s' => regex_exec r (S p) s'
      end
  end.

(** [RegExp.prototype.test] of a regular expression without the g flag. *)
Definition regex_test (r : regex) (s : jsstring) : bool :=
  match regex_exec r 0 s with Some _ => true | None => false end.

(** The occurrences a global regular expression yields to
    [String.prototype.replace]: leftmost first, each search resuming where
    the previous occurrence ended (one further after an empty one). *)
Fixpoint regex_occurrences (r : regex) (fuel : nat) (p : nat) (s : jsstring)
    : list occurrence :=
  match fuel with
  | 0 => []
  | S fuel' =>
      match regex_exec r p s with
      | None => []
      | Some o =>
          let y := occ_end o in
          o :: (if occ_index o <? pos y
                then regex_occurrences r fuel' (pos y) (rest y)
                else match rest y with
                     | [] => []
                     | _ :: t => regex_occurrences r fuel' (S (pos y)) t
                     end)
      end
  end.

Definition regex_matchAll (r : regex) (s : jsstring) : list occurrence :=
  regex_occurrences r (S (length s)) 0 s.

(* ------------------------------------------------------------------ *)
(** *** Outcomes of JavaScript computations *)

Inductive js_error : Type :=
| TypeError
| SyntaxError
| FileAccessError (path : jsstring).

(** A computation returns, throws, or leaves the modelled fragment of
    JavaScript ([Unmodelled]). *)
Inductive result (A : Type) : Type :=
| Ok (a : A)
| Throw (e : js_error)
| Unmodelled.
Arguments Ok {A} a.
Arguments Throw {A} e.
Arguments Unmodelled {A}.

Definition bind {A B : Type} (m : result A) (f : A -> result B) : result B :=
  match m with
  | Ok a => f a
  | Throw e => Throw e
  | Unmodelled => Unmodelled
  end.

Notation "x <- m ;; k" := (bind m (fun x => k))
  (at level 61, m at next level, right associativity).

Fixpoint mapM {A B : Type} (f : A -> result B) (l : list A) : result (list B) :=
  match l with
  | [] => Ok []
  | a :: l' => b <- f a ;; bs <- mapM f l' ;; Ok (b :: bs)
  end.

(* ------------------------------------------------------------------ *)
(** *** [new RegExp(source)]

    The pattern grammar is modelled for sources made of pattern
    characters, [.], [^], [$] and a [*] after an atom.  A [*] with nothing
    to repeat is a [SyntaxError]; the other syntax characters
    ([\ + ? ( ) [ ] { } |]) are outside the modelled fragment. *)

Definition is_unmodelled_syntax (c : ascii) : bool :=
  existsb (ascii_eqb c) (js "\+?()[]{}|").

Definition atom_class (c : ascii) : charclass :=
  if ascii_eqb c "." then CDot else CChar c.

Fixpoint parse_pattern (src : jsstring) : result regex :=
  match src with
  | [] => Ok REmpty
  | c :: src' =>
      if is_unmodelled_syntax c then Unmodelled
      else if ascii_eqb c "*" then Throw SyntaxError
      else if ascii_eqb c "^" then r <- parse_pattern src' ;; Ok (RSeq RBol r)
      else if ascii_eqb c "$" then r <- parse_pattern src' ;; Ok (RSeq REol r)
      else
        match src' with
        | d :: src'' =>
            if ascii_eqb d "*"
            then r <- parse_pattern src'' ;; Ok (RSeq (RStar (RClass (atom_class c))) r)
            else r <- parse_pattern src' ;; Ok (RSeq (RClass (atom_class c)) r)
        | [] => Ok (RSeq (RClass (atom_class c)) REmpty)
        end
  end.

Definition new_RegExp (src : jsstring) : result regex := parse_pattern src.

(** The scanner's [importRegex], with [Q] for the class of the single and
    the double quote: [import\s+[\w{},*\s]+\s+from\s+Q([^Q]+)Q;] with the
    g flag. *)
Definition dquote : ascii := ascii_of_nat 34.

Definition quote_class : charclass := COneOf ["'"%char; dquote].

Definition space_plus : regex := RPlus (RClass CSpace).

Definition bindings_class : charclass :=
  CUnion CWord (CUnion (COneOf (js "{},*")) CSpace).

Definition importRegex : regex :=
  RSeq (RLit (js "import"))
  (RSeq space_plus
  (RSeq (RPlus (RClass bindings_class))
  (RSeq space_plus
  (RSeq (RLit (js "from"))
  (RSeq space_plus
  (RSeq (RClass quote_class)
  (RSeq (RGroup (RPlus (RClass (CNot quote_class))))
  (RSeq (RClass quote_class)
        (RClass (CChar ";"))))))))))%char.

(* ================================================================== *)
(** ** The POSIX [path] module of Node.js

    Paths are handled through their segments: the texts between slashes.
    [cwd], the working directory of the process, is an absolute path. *)
(* ================================================================== *)

Definition slash : ascii := "/"%char.
Definition dot_seg : jsstring := js ".".
Definition dotdot_seg : jsstring := js "..".

(** [s.split('/')]. *)
Fixpoint split_slash (s : jsstring) : list jsstring :=
  match s with
  | [] => [[]]
  | c :: s' =>
      if ascii_eqb c slash then [] :: split_slash s'
      else match split_slash s' with
           | seg :: segs => (c :: seg) :: segs
           | [] => [[c]]
           end
  end.

(** [segs.join('/')]. *)
Fixpoint join_slash (segs : list jsstring) : jsstring :=
  match segs with
  | [] => []
  | [seg] => seg
  | seg :: segs' => seg ++ slash :: join_slash segs'
  end.

(** One step of [normalizeString]: [res] holds the segments kept so far,
    the last one first.  Empty and [.] segments are dropped; [..] removes
    the segment before it, or is kept when there is none to remove and the
    path may climb above its start. *)
Definition normalize_step (allowAboveRoot : bool) (res : list jsstring)
    (seg : jsstring) : list jsstring :=
  if str_eqb seg [] || str_eqb seg dot_seg then res
  else if str_eqb seg dotdot_seg then
    match res with
    | last :: res' =>
        if str_eqb last dotdot_seg
        then (if allowAboveRoot then dotdot_seg :: res else res)
        else res'
    | [] => if allowAboveRoot then [dotdot_seg] else []
    end
  else seg :: res.

Definition normalize_segments (allowAboveRoot : bool) (segs : list jsstring)
    : list jsstring :=
  rev (fold_left (normalize_step allowAboveRoot) segs []).

Definition normalizeString (p : jsstring) (allowAboveRoot : bool) : jsstring :=
  join_slash (normalize_segments allowAboveRoot (split_slash p)).

Definition is_absolute (p : jsstring) : bool :=
  match p with c :: _ => ascii_eqb c slash | [] => false end.

Definition ends_with_slash (p : jsstring) : bool :=
  match rev p with c :: _ => ascii_eqb c slash | [] => false end.

(** [path.normalize]. *)
Definition path_normalize (p : jsstring) : jsstring :=
  match p with
  | [] => dot_seg
  | _ :: _ =>
      let isAbsolute := is_absolute p in
      let trailingSeparator := ends_with_slash p in
      let q := normalizeString p (negb isAbsolute) in
      match q with
      | [] => if isAbsolute then [slash]
              else if trailingSeparator then js "./" else dot_seg
      | _ :: _ =>
          let q' := if trailingSeparator then q ++ [slash] else q in
          if isAbsolute then slash :: q' else q'
      end
  end.

(** [path.join(a, b)]: the non-empty arguments, joined by a slash and
    normalized. *)
Definition path_join (a b : jsstring) : jsstring :=
  match a, b with
  | [], [] => dot_seg
  | [], _ :: _ => path_normalize b
  | _ :: _, [] => path_normalize a
  | _ :: _, _ :: _ => path_normalize (a ++ slash :: b)
  end.

(** [path.dirname]: the text before the last slash that is followed by a
    segment, looking no further than index 1. *)
Definition path_dirname (p : jsstring) : jsstring :=
  match p with
  | [] => dot_seg
  | c :: body =>
      let hasRoot := ascii_eqb c slash in
      let none := if hasRoot then [slash] else dot_seg in
      let r1 := (fix drop_slashes (l : jsstring) : jsstring :=
                   match l with
                   | d :: l' => if ascii_eqb d slash then drop_slashes l' else l
                   | [] => []
                   end) (rev body) in
      let r2 := (fix drop_name (l : jsstring) : jsstring :=
                   match l with
                   | d :: l' => if ascii_eqb d slash then l else drop_name l'
                   | [] => []
                   end) r1 in
      match r2 with
      | [] => none
      | _ :: r3 =>
          match r3 with
          | [] => if hasRoot then js "//" else [c]
          | _ :: _ => c :: rev r3
          end
      end
  end.

Section PathResolution.
Variable cwd : jsstring.

(** [path.resolve(p)] with one argument. *)
Definition path_resolve (p : jsstring) : jsstring :=
  let joined :=
    match p with
    | [] => cwd ++ [slash]
    | _ :: _ => if is_absolute p then p ++ [slash]
                else cwd ++ slash :: p ++ [slash]
    end in
  let resolvedAbsolute := is_absolute joined in
  let q := normalizeString joined (negb resolvedAbsolute) in
  if resolvedAbsolute then slash :: q
  else match q with [] => dot_seg | _ :: _ => q end.

(** The segments of a resolved path, after its leading slash. *)
Definition resolved_segments (p : jsstring) : list jsstring :=
  match p with
  | [] => []
  | _ :: body => match body with [] => [] | _ :: _ => split_slash body end
  end.

Fixpoint drop_common (f t : list jsstring) : list jsstring * list jsstring :=
  match f, t with
  | a :: f', b :: t' => if str_eqb a b then drop_common f' t' else (f, t)
  | _, _ => (f, t)
  end.

(** [path.relative(from, to)]: one [..] for each segment of [from] after
    the part it shares with [to], then the rest of [to]. *)
Definition path_relative (from to : jsstring) : jsstring :=
  if str_eqb from to then []
  else
    let from' := path_resolve from in
    let to' := path_resolve to in
    if str_eqb from' to' then []
    else
      let '(f, t) := drop_common (resolved_segments from') (resolved_segments to') in
      join_slash (map (fun _ => dotdot_seg) f ++ t).
End PathResolution.

(* ================================================================== *)
(** ** JavaScript values read from the configuration *)
(* ================================================================== *)

(** What [jsoncParser.parse] returns.  An object lists its properties in
    the order of their creation; its keys are distinct. *)
#[local] Unset Elimination Schemes.
Inductive jsvalue : Type :=
| VUndefined
| VNull
| VBool (b : bool)
| VNumber (z : Z)
| VString (s : jsstring)
| VArray (items : list jsvalue)
| VObject (props : list (jsstring * jsvalue)).
#[local] Set Elimination Schemes.

Fixpoint assoc {A : Type} (key : jsstring) (props : list (jsstring * A)) : option A :=
  match props with
  | [] => None
  | (k, v) :: props' => if str_eqb k key then Some v else assoc key props'
  end.

Definition digit_value (c : ascii) : option N :=
  if in_range 48 57 c then Some (N.of_nat (nat_of_ascii c - 48)) else None.

Fixpoint decimal_value (acc : N) (s : jsstring) : option N :=
  match s with
  | [] => Some acc
  | c :: s' =>
      match digit_value c with
      | Some d => decimal_value (10 * acc + d)%N s'
      | None => None
      end
  end.

(** A key is an array index when it is the canonical decimal text of an
    integer below 2^32 - 1. *)
Definition array_index (key : jsstring) : option N :=
  match key with
  | [] => None
  | c :: key' =>
      if ascii_eqb c "0" && negb (length key' =? 0) then None
      else if 10 <? length key then None
      else match decimal_value 0 key with
           | Some n => if (n <? 4294967295)%N then Some n else None
           | None => None
           end
  end.

Definition index_key (n : nat) : jsstring :=
  js (NilZero.string_of_uint (Nat.to_uint n)).

(** The element at an index, [None] past the end. *)
Definition element_at {A : Type} (l : list A) (i : N) : option A :=
  if (i <? N.of_nat (length l))%N then nth_error l (N.to_nat i) else None.

(** Property read [v[key]] for the keys the program reads
    ([compilerOptions], [paths] and [0]), none of which is inherited from a
    prototype.  Reading a property of [undefined] or [null] throws. *)
Definition js_get (v : jsvalue) (key : jsstring) : result jsvalue :=
  match v with
  | VUndefined | VNull => Throw TypeError
  | VBool _ | VNumber _ => Ok VUndefined
  | VString s =>
      match array_index key with
      | Some i => match element_at s i with
                  | Some c => Ok (VString [c])
                  | None => Ok VUndefined
                  end
      | None => Ok VUndefined
      end
  | VArray items =>
      match array_index key with
      | Some i => match element_at items i with
                  | Some x => Ok x
                  | None => Ok VUndefined
                  end
      | None => Ok VUndefined
      end
  | VObject props =>
      match assoc key props with
      | Some x => Ok x
      | None => Ok VUndefined
      end
  end.

Fixpoint insert_index {A : Type} (e : N * A) (l : list (N * A)) : list (N * A) :=
  match l with
  | [] => [e]
  | e' :: l' => if (fst e <=? fst e')%N then e :: l else e' :: insert_index e l'
  end.

(** Own property order: array indices ascending, then the other keys in
    creation order. *)
Definition ordered_props {A : Type} (props : list (jsstring * A)) : list (jsstring * A) :=
  let indexed :=
    flat_map (fun kv => match array_index (fst kv) with
                        | Some n => [(n, kv)]
                        | None => []
                        end) props in
  let named :=
    filter (fun kv => match array_index (fst kv) with
                      | Some _ => false
                      | None => true
                      end) props in
  map snd (fold_right insert_index [] indexed) ++ named.

Fixpoint enumerate {A : Type} (i : nat) (l : list A) : list (jsstring * A) :=
  match l with
  | [] => []
  | a :: l' => (index_key i, a) :: enumerate (S i) l'
  end.

(** [Object.entries(v)]. *)
Definition object_entries (v : jsvalue) : result (list (jsstring * jsvalue)) :=
  match v with
  | VUndefined | VNull => Throw TypeError
  | VBool _ | VNumber _ => Ok []
  | VString s => Ok (enumerate 0 (map (fun c => VString [c]) s))
  | VArray items => Ok (enumerate 0 items)
  | VObject props => Ok (ordered_props props)
  end.

(** The method call [v.replace(pat, repl)]: only a string has the method. *)
Definition call_replace (v : jsvalue) (pat repl : jsstring) : result jsstring :=
  match v with
  | VString s => Ok (js_replace s pat repl)
  | _ => Throw TypeError
  end.

(** [Array.prototype.sort(cmp)]: a stable sort; [cmp a b <= 0] keeps [a]
    before [b]. *)
Fixpoint sort_insert {A : Type} (cmp : A -> A -> Z) (a : A) (l : list A) : list A :=
  match l with
  | [] => [a]
  | b :: l' => if (cmp a b <=? 0)%Z then a :: l else b :: sort_insert cmp a l'
  end.

Definition js_sort {A : Type} (cmp : A -> A -> Z) (l : list A) : list A :=
  fold_right (sort_insert cmp) [] l.

(* ================================================================== *)
(** ** The alias table builder: [preparePaths] *)
(* ================================================================== *)

(** One rule of the table, as the object literal of [preparePaths] has it. *)
Record alias_rule : Type := AliasRule {
  aliasRegex : regex;
  alias : jsstring;
  path : jsstring
}.

Definition wildcard : jsstring := js "/*".

(** [excludedPaths.some(excludedPath => alias.includes(excludedPath))]. *)
Definition is_excluded (excludedPaths : list jsstring) (a : jsstring) : bool :=
  existsb (fun excludedPath => includes a excludedPath) excludedPaths.

(** The source text handed to [new RegExp]. *)
Definition alias_source (a : jsstring) : jsstring :=
  js "^" ++ replace_stars a ++ js "$".

(** The callback of [.map]: one entry of the mapping becomes one rule. *)
Definition build_rule (entry : jsstring * jsvalue) : result alias_rule :=
  let '(a, paths) := entry in
  re <- new_RegExp (alias_source a) ;;
  first <- js_get paths (js "0") ;;
  p <- call_replace first wildcard [] ;;
  Ok (AliasRule re (js_replace a wildcard []) p).

(** The comparator of [.sort]: [b.alias.length - a.alias.length]. *)
Definition by_alias_length (a b : alias_rule) : Z :=
  (Z.of_nat (length (alias b)) - Z.of_nat (length (alias a)))%Z.

(** [Object.entries(tsconfig.compilerOptions.paths)]. *)
Definition config_paths_entries (tsconfig : jsvalue)
    : result (list (jsstring * jsvalue)) :=
  compilerOptions <- js_get tsconfig (js "compilerOptions") ;;
  paths <- js_get compilerOptions (js "paths") ;;
  object_entries paths.

(** What [.filter] keeps: the entries whose alias contains no excluded
    path. *)
Definition kept_entries (excludedPaths : list jsstring)
    (entries : list (jsstring * jsvalue)) : list (jsstring * jsvalue) :=
  filter (fun entry => negb (is_excluded excludedPaths (fst entry))) entries.

Definition preparePaths (tsconfig : jsvalue) (excludedPaths : list jsstring)
    : result (list alias_rule) :=
  entries <- config_paths_entries tsconfig ;;
  rules <- mapM build_rule (kept_entries excludedPaths entries) ;;
  Ok (js_sort by_alias_length rules).

(* ================================================================== *)
(** ** The file system *)
(* ================================================================== *)

(** The text of each readable file; [None] for a path that cannot be read.
    Writing a file always succeeds.  What the program prints on the console
    is left out of the model. *)
Definition filesystem := jsstring -> option jsstring.

Definition readFileSync (fs : filesystem) (file : jsstring) : result jsstring :=
  match fs file with
  | Some content => Ok content
  | None => Throw (FileAccessError file)
  end.

Definition writeFileSync (fs : filesystem) (file content : jsstring) : filesystem :=
  fun f => if str_eqb f file then Some content else fs f.

(* ================================================================== *)
(** ** The import scanner: [findMatches] *)
(* ================================================================== *)

(** An entry pushed onto [matches]. *)
Record import_match : Type := ImportMatch {
  match_text : jsstring;              (* [match] *)
  match_alias : jsstring;             (* [alias] *)
  importPath : jsstring;
  aliasPath : jsstring
}.

(** The [for ... of paths] loop of the callback: the first rule whose
    [aliasRegex] tests true on the import path. *)
Fixpoint first_rule (paths : list alias_rule) (p : jsstring) : option alias_rule :=
  match paths with
  | [] => None
  | r :: paths' =>
      if regex_test (aliasRegex r) p then Some r else first_rule paths' p
  end.

(** The first capture of an occurrence. *)
Definition capture1 (o : occurrence) : jsstring := nth 0 (occ_caps o) [].

(** The callback handed to [replace]: what it pushes for one occurrence. *)
Definition scan_callback (paths : list alias_rule) (o : occurrence) : list import_match :=
  match first_rule paths (capture1 o) with
  | Some r => [ImportMatch (occ_text o) (alias r) (capture1 o) (path r)]
  | None => []
  end.

Definition scan_content (paths : list alias_rule) (content : jsstring) : list import_match :=
  flat_map (scan_callback paths) (regex_matchAll importRegex content).

Definition findMatches (fs : filesystem) (targetFilePath : jsstring)
    (paths : list alias_rule) : result (list import_match * jsstring) :=
  targetFileContent <- readFileSync fs targetFilePath ;;
  Ok (scan_content paths targetFileContent, targetFileContent).

(* ================================================================== *)
(** ** The path rewriter: [replaceAliases] *)
(* ================================================================== *)

Section Rewriter.
Variable cwd : jsstring.

(** [longestRelativeImportPath] of one match. *)
Definition new_import_path (targetFilePath : jsstring) (m : import_match) : jsstring :=
  let relativePathToAliasPath := js_replace (importPath m) (match_alias m) [] in
  let relativePath := path_relative cwd (path_dirname targetFilePath) (aliasPath m) in
  path_join relativePath relativePathToAliasPath.

(** The body of [matches.forEach]. *)
Definition replace_one (targetFilePath : jsstring) (result : jsstring)
    (m : import_match) : jsstring :=
  let longestRelativeImportPath := new_import_path targetFilePath m in
  let fixedRelativeImportPath :=
    js_replace (match_text m) (importPath m) longestRelativeImportPath in
  js_replace result (match_text m) fixedRelativeImportPath.

Definition replaceAliases (matches : list import_match)
    (targetFileContent targetFilePath : jsstring) : jsstring :=
  fold_left (replace_one targetFilePath) matches targetFileContent.

(* ================================================================== *)
(** ** The batch loop: [replaceImports] *)
(* ================================================================== *)

(** The files, and what has been handed to [writeResultToFile]. *)
Record world : Type := World {
  files : filesystem;
  submitted : list (jsstring * jsstring)
}.

Variable dry : bool.                  (* [cliOptions.dry] *)

Definition writeResultToFile (w : world) (targetFilePath result : jsstring) : world :=
  World (if dry then files w else writeFileSync (files w) targetFilePath result)
        (submitted w ++ [(targetFilePath, result)]).

(** [files.forEach(...)]: an exception leaves the loop; [count] is
    [fixedImportStatements]. *)
Fixpoint forEach_file (paths : list alias_rule) (fileList : list jsstring)
    (w : world) (count : nat) : world * result nat :=
  match fileList with
  | [] => (w, Ok count)
  | file :: fileList' =>
      match findMatches (files w) file paths with
      | Ok (matches, targetFileContent) =>
          match matches with
          | [] => forEach_file paths fileList' w count
          | _ :: _ =>
              let result := replaceAliases matches targetFileContent file in
              forEach_file paths fileList'
                (writeResultToFile w file result) (count + length matches)
          end
      | Throw e => (w, Throw e)
      | Unmodelled => (w, Unmodelled)
      end
  end.

(** [replaceImports({ files, paths })]: the world it leaves and the count
    it reports. *)
Definition replaceImports (fileList : list jsstring) (paths : list alias_rule)
    (w : world) : world * result nat :=
  forEach_file paths fileList w 0.
End Rewriter.

(* ================================================================== *)
(** ** The command line: [init] and its helpers *)
(* ================================================================== *)

(** [s.split(sep)] for a separator of one character. *)
Fixpoint split_on (sep : ascii) (s : jsstring) : list jsstring :=
  match s with
  | [] => [[]]
  | c :: s' =>
      if ascii_eqb c sep then [] :: split_on sep s'
      else match split_on sep s' with
           | piece :: pieces => (c :: piece) :: pieces
           | [] => [[c]]
           end
  end.

(** What [yargs] hands over: an option that was not given is [undefined],
    here [None]. *)
Record arguments : Type := Argv {
  arg_tsconfig : option jsstring;
  arg_target : option jsstring;
  arg_exclude : option jsstring;
  arg_excludeAlias : option jsstring;
  arg_verbose : option bool;
  arg_dry : option bool
}.

(** The object [init] returns. *)
Record options : Type := Options {
  tsconfigPath : jsstring;
  targetGlob : jsstring;
  excludeAlias : list jsstring;
  excludeGlob : option jsstring;
  verbose : option bool;
  dry : option bool
}.

(** A call returns, or ends the process through [process.exit]. *)
Inductive outcome (A : Type) : Type :=
| Returns (a : A)
| Exits (code : nat).
Arguments Returns {A} a.
Arguments Exits {A} code.

Section CommandLine.
Variable cwd : jsstring.                      (* [process.cwd()] *)
Variable existsSync : jsstring -> bool.       (* [fs.existsSync] *)
Variable hasMagic : jsstring -> bool.         (* [glob.hasMagic] *)

(** [getGivenOrDefaultTsConfigPath]: a given path is taken when it exists;
    without a given path, the first of the two default paths that exists.
    In every other case the function returns nothing ([undefined]).  The
    empty string counts as not given. *)
Definition getGivenOrDefaultTsConfigPath (argsTsConfig : option jsstring)
    : option jsstring :=
  match argsTsConfig with
  | Some (c :: p) => if existsSync (c :: p) then Some (c :: p) else None
  | Some [] | None =>
      let tsConfigPaths :=
        [path_join cwd (js "tsconfig.json"); path_join cwd (js "tsconfig.base.json")] in
      match find existsSync tsConfigPaths with
      | Some (c :: p) => Some (c :: p)
      | Some [] | None => None
      end
  end.

(** [getGivenOrDefaultFileGlob]: the pattern when it is given and has glob
    magic, nothing otherwise. *)
Definition getGivenOrDefaultFileGlob (globPattern : option jsstring)
    : option jsstring :=
  match globPattern with
  | Some (c :: p) => if hasMagic (c :: p) then Some (c :: p) else None
  | Some [] | None => None
  end.

(** [init], from the arguments on: the exclusion list is the given text
    split at its commas, the process exits with code 1 unless both the
    configuration path and the target pattern were found. *)
Definition init (argv : arguments) : outcome options :=
  let excludeAlias :=
    match arg_excludeAlias argv with
    | Some (c :: a) => split_on "," (c :: a)
    | Some [] | None => []
    end in
  let tsconfigPath := getGivenOrDefaultTsConfigPath (arg_tsconfig argv) in
  let targetGlob := getGivenOrDefaultFileGlob (arg_target argv) in
  let excludeGlob := getGivenOrDefaultFileGlob (arg_exclude argv) in
  match tsconfigPath, targetGlob with
  | Some (c :: t), Some (d :: g) =>
      Returns (Options (c :: t) (d :: g) excludeAlias excludeGlob
                       (arg_verbose argv) (arg_dry argv))
  | _, _ => Exits 1
  end.
End CommandLine.

(* ================================================================== *)
(** ** Notions used to state the properties *)
(* ================================================================== *)

(** [occurs_at pat s i]: [pat] occurs in [s] at index [i]. *)
Definition occurs_at (pat s : jsstring) (i : nat) : Prop :=
  exists pre post, s = pre ++ pat ++ post /\ length pre = i.

(** A substring, as a proposition. *)
Definition is_substring (pat s : jsstring) : Prop :=
  exists pre post, s = pre ++ pat ++ post.

(** [Matches r x y]: [r] can match from state [x] and end in state [y]. *)
Inductive Matches : regex -> mstate -> mstate -> Prop :=
| M_Empty x : Matches REmpty x x
| M_Class cc c s p cs :
    class_mem cc c = true ->
    Matches (RClass cc) (MState p (c :: s) cs) (MState (S p) s cs)
| M_Seq r1 r2 x y z :
    Matches r1 x y -> Matches r2 y z -> Matches (RSeq r1 r2) x z
| M_StarStop r x : Matches (RStar r) x x
| M_StarStep r x y z :
    Matches r x y -> length (rest y) < length (rest x) ->
    Matches (RStar r) y z -> Matches (RStar r) x z
| M_Group r x y : Matches r x y -> Matches (RGroup r) x (close_group x y)
| M_Bol x : pos x = 0 -> Matches RBol x x
| M_Eol x : rest x = [] -> Matches REol x x.

#[local] Hint Constructors Matches : core.

Definition all_in (cc : charclass) (t : jsstring) : Prop :=
  Forall (fun c => class_mem cc c = true) t.


(** [reads x t y]: from [x] to [y] the text [t] is consumed and nothing
    is captured. *)
Definition reads (x : mstate) (t : jsstring) (y : mstate) : Prop :=
  rest x = t ++ rest y /\ pos y = pos x + length t /\ caps y = caps x.




(** [found_in r s p o]: [o] is a match of [r] inside the text [s], which
    begins at index [p]. *)
Definition found_in (r : regex) (s : jsstring) (p : nat) (o : occurrence) : Prop :=
  exists pre post, s = pre ++ post /\ occ_index o = p + length pre /\
    Matches r (MState (p + length pre) post []) (occ_end o) /\
    occ_caps o = caps (occ_end o) /\
    occ_text o = firstn (pos (occ_end o) - occ_index o) post.

(** An entry of the mapping the builder can turn into a rule: its alias
    gives a pattern of the modelled grammar and its value is an array that
    begins with a string. *)
Definition well_formed_entry (entry : jsstring * jsvalue) : Prop :=
  (exists re, new_RegExp (alias_source (fst entry)) = Ok re) /\
  (exists target others, snd entry = VArray (VString target :: others)).

(** [longer_first a b]: the alias of [a] is at least as long as that of
    [b]. *)
Definition longer_first (a b : alias_rule) : Prop :=
  length (alias b) <= length (alias a).

(** The syntax characters of the pattern grammar. *)
Definition is_syntax_char (c : ascii) : bool :=
  existsb (ascii_eqb c) (js "^$\.*+?()[]{}|").

(** A plain text holds no syntax character. *)
Definition plain (s : jsstring) : Prop :=
  Forall (fun c => is_syntax_char c = false) s.

(** The characters of [s] in sequence, then [r]. *)
Fixpoint seq_lit (s : jsstring) (r : regex) : regex :=
  match s with
  | [] => r
  | c :: s' => RSeq (RClass (CChar c)) (seq_lit s' r)
  end.

(** The matcher of the alias [prefix/*]: the prefix, a slash, any run of
    characters other than line terminators, and the end. *)
Definition wildcard_tail : regex :=
  RSeq (RClass (CChar "/")) (RSeq (RStar (RClass CDot)) (RSeq REol REmpty)).

Definition prefix_matcher (prefix : jsstring) : regex :=
  RSeq RBol (seq_lit prefix wildcard_tail).



(* ------------------------------------------------------------------ *)
(** *** Sample projects *)

(** The working directory of the sample runs. *)
Definition project_dir : jsstring := js "/proj".

(** A configuration with the given [paths] mapping. *)
Definition tsconfig_with (paths : jsvalue) : jsvalue :=
  VObject [(js "compilerOptions", VObject [(js "paths", paths)])].

Definition targets (l : list string) : jsvalue := VArray (map (fun t => VString (js t)) l).

(** A file system with one readable file. *)
Definition one_file (name content : jsstring) : filesystem :=
  fun f => if str_eqb f name then Some content else None.

Definition utils_config : jsvalue :=
  tsconfig_with (VObject [(js "utils", targets ["src/utils"%string])]).


Definition app_config : jsvalue :=
  tsconfig_with (VObject [(js "@app/*", targets ["src/app"%string]);
                          (js "@app/core/*", targets ["src/app/core"%string])]).

Definition home_ts : jsstring := js "src/pages/home.ts".
Definition index_ts : jsstring := js "src/index.ts".

(** [import Button from Q@components/buttonQ;] with the quote [q]. *)
Definition button_import (q : ascii) (p : string) : jsstring :=
  js "import Button from " ++ [q] ++ js p ++ [q] ++ js ";".

(** The value of [tsconfig.compilerOptions.paths]. *)
Definition config_paths (tsconfig : jsvalue) : result jsvalue :=
  compilerOptions <- js_get tsconfig (js "compilerOptions") ;;
  js_get compilerOptions (js "paths").

(** The removal the specification words: a prefix at the front of the
    literal is removed, anything else is left. *)
Definition front_remove (prefix s : jsstring) : jsstring :=
  if starts_with prefix s then skipn (length prefix) s else s.

(** The alias as a glob, in the words of the specification: a star stands
    for any sequence of characters, every other character for itself. *)
Fixpoint glob_denotes (pat s : jsstring) : bool :=
  match pat with
  | [] => match s with [] => true | _ :: _ => false end
  | c :: pat' =>
      if ascii_eqb c "*" then
        (fix any (u : jsstring) : bool :=
           glob_denotes pat' u ||
           match u with [] => false | _ :: u' => any u' end) s
      else
        match s with
        | d :: s' => ascii_eqb c d && glob_denotes pat' s'
        | [] => false
        end
  end.

(* ------------------------------------------------------------------ *)
(** *** What a batch is expected to leave *)




(* ------------------------------------------------------------------ *)
(** *** More samples *)

(** The rule of the alias [@app/*] for [src/app]. *)
Definition app_rule : alias_rule :=
  AliasRule (prefix_matcher (js "@app")) (js "@app") (js "src/app").


(* ------------------------------------------------------------------ *)
(** *** Entries of the mapping *)

(** The first target of an entry's value, when it is a string. *)
Definition first_target (v : jsvalue) : option jsstring :=
  match js_get v (js "0") with
  | Ok (VString s) => Some s
  | _ => None
  end.

(** Two entries with the same alias and the same first target. *)
Definition same_first_target (e1 e2 : jsstring * jsvalue) : Prop :=
  fst e1 = fst e2 /\ first_target (snd e1) = first_target (snd e2).

(** The alias of an entry gives a pattern of the modelled grammar. *)
Definition alias_compiles (e : jsstring * jsvalue) : Prop :=
  exists re, new_RegExp (alias_source (fst e)) = Ok re.

(* ------------------------------------------------------------------ *)
(** *** Occurrences, statements and aliases *)

(** [follows a b]: the occurrence [b] begins where [a] ends, or later. *)
Definition follows (a b : occurrence) : Prop :=
  occ_index a + length (occ_text a) <= occ_index b.

(** A text holds a dollar sign, the character [String.prototype.replace]
    gives a meaning to in a replacement. *)
Definition has_dollar (s : jsstring) : bool := existsb (ascii_eqb "$") s.

(** An entry whose alias is a plain prefix followed by the wildcard. *)
Definition plain_prefix_entry (e : jsstring * jsvalue) : Prop :=
  exists prefix, fst e = prefix ++ wildcard /\ plain prefix.

(** A rule whose matcher is that of a plain prefix. *)
Definition plain_prefix_rule (r : alias_rule) : Prop :=
  plain (alias r) /\ aliasRegex r = prefix_matcher (alias r).

(** A project directory that holds [tsconfig.json] only. *)
Definition sample_exists (p : jsstring) : bool := str_eqb p (js "/proj/tsconfig.json").

(** A pattern with a star has glob magic. *)
Definition sample_magic (p : jsstring) : bool := existsb (ascii_eqb "*") p.

(* ================================================================== *)
(** ** Facts about the string primitives *)
(* ================================================================== *)

Lemma ascii_eqb_eq (a b : ascii) : ascii_eqb a b = true <-> a = b.
Proof. unfold ascii_eqb. apply Ascii.eqb_eq. Qed.

Lemma ascii_eqb_refl (a : ascii) : ascii_eqb a a = true.
Proof. apply ascii_eqb_eq. reflexivity. Qed.

Lemma ascii_eqb_neq (a b : ascii) : ascii_eqb a b = false <-> a <> b.
Proof. unfold ascii_eqb. apply Ascii.eqb_neq. Qed.

Lemma str_eqb_eq (s t : jsstring) : str_eqb s t = true <-> s = t.
Proof.
  revert t. induction s as [|a s IH]; intros [|b t]; simpl; split; try congruence.
  - intros H. apply andb_true_iff in H as [Hab Hst].
    apply ascii_eqb_eq in Hab. apply IH in Hst. congruence.
  - intros H. injection H as -> ->.
    rewrite ascii_eqb_refl. apply IH. reflexivity.
Qed.

Lemma str_eqb_neq (s t : jsstring) : str_eqb s t = false <-> s <> t.
Proof.
  split.
  - intros H E. apply str_eqb_eq in E. congruence.
  - intros H. destruct (str_eqb s t) eqn:E; [|reflexivity].
    apply str_eqb_eq in E. contradiction.
Qed.

Lemma starts_with_iff (p s : jsstring) :
  starts_with p s = true <-> exists t, s = p ++ t.
Proof.
  revert s. induction p as [|a p IH]; intros s; simpl.
  - split; [intros _; exists s; reflexivity | reflexivity].
  - destruct s as [|b s].
    + split; [discriminate | intros [t Ht]; discriminate].
    + rewrite andb_true_iff, ascii_eqb_eq, IH. split.
      * intros [-> [t ->]]. exists t. reflexivity.
      * intros [t Ht]. injection Ht as -> ->. split; [reflexivity | exists t; reflexivity].
Qed.

Lemma starts_with_app (p t : jsstring) : starts_with p (p ++ t) = true.
Proof. apply starts_with_iff. exists t. reflexivity. Qed.

Lemma occurs_at_0 (pat s : jsstring) :
  occurs_at pat s 0 <-> starts_with pat s = true.
Proof.
  rewrite starts_with_iff. split.
  - intros (pre & post & -> & Hl). destruct pre; [|discriminate]. exists post. reflexivity.
  - intros [t ->]. exists [], t. split; reflexivity.
Qed.

Lemma occurs_at_S (pat : jsstring) (c : ascii) (s : jsstring) (i : nat) :
  occurs_at pat (c :: s) (S i) <-> occurs_at pat s i.
Proof.
  split.
  - intros (pre & post & E & Hl). destruct pre as [|d pre]; [discriminate|].
    simpl in E, Hl. injection E as -> ->. exists pre, post. split; [reflexivity | lia].
  - intros (pre & post & -> & Hl). exists (c :: pre), post. split; [reflexivity | simpl; lia].
Qed.

(** [indexOf] finds the first occurrence. *)
Lemma indexOf_Some (pat s : jsstring) (i : nat) :
  indexOf pat s = Some i <->
  occurs_at pat s i /\ forall j, j < i -> ~ occurs_at pat s j.
Proof.
  revert i. induction s as [|c s IH]; intros i.
  - simpl. destruct (starts_with pat []) eqn:E.
    + split.
      * intros [= <-]. split; [apply occurs_at_0; exact E | intros j Hj; lia].
      * intros [Hocc Hfirst]. destruct i; [reflexivity|].
        exfalso. apply (Hfirst 0); [lia | apply occurs_at_0; exact E].
    + split; [discriminate|]. intros [(pre & post & Hs & Hl) _].
      destruct pre; [|discriminate]. destruct pat; [discriminate | discriminate].
  - simpl. destruct (starts_with pat (c :: s)) eqn:E.
    + split.
      * intros [= <-]. split; [apply occurs_at_0; exact E | intros j Hj; lia].
      * intros [Hocc Hfirst]. destruct i; [reflexivity|].
        exfalso. apply (Hfirst 0); [lia | apply occurs_at_0; exact E].
    + destruct i as [|i].
      * split.
        -- destruct (indexOf pat s); discriminate.
        -- intros [Hocc _]. apply occurs_at_0 in Hocc. congruence.
      * destruct (indexOf pat s) as [j|] eqn:Ej; simpl.
        -- split.
           ++ intros [= <-]. destruct (proj1 (IH j) eq_refl) as [Hocc Hfirst].
              split; [apply occurs_at_S; exact Hocc|].
              intros [|k] Hk Hk'.
              ** apply occurs_at_0 in Hk'. congruence.
              ** apply occurs_at_S in Hk'. apply (Hfirst k); [lia | exact Hk'].
           ++ intros [Hocc Hfirst]. f_equal. 
              assert (Hi : Some j = Some i); [|congruence].
              apply IH. split; [apply occurs_at_S in Hocc; exact Hocc|].
              intros k Hk Hk'. apply (Hfirst (S k)); [lia | apply occurs_at_S; exact Hk'].
        -- split; [discriminate|]. intros [Hocc Hfirst]. exfalso.
           assert (Hi : @None nat = Some i); [|congruence].
           apply IH. split; [apply occurs_at_S in Hocc; exact Hocc|].
           intros k Hk Hk'. apply (Hfirst (S k)); [lia | apply occurs_at_S; exact Hk'].
Qed.

Lemma indexOf_None (pat s : jsstring) :
  indexOf pat s = None <-> forall i, ~ occurs_at pat s i.
Proof.
  split.
  - revert pat. induction s as [|c s IH]; intros pat H i Hocc.
    + simpl in H. destruct (starts_with pat []) eqn:E; [discriminate|].
      destruct Hocc as (pre & post & Hs & Hl).
      destruct pre; [|discriminate]. destruct pat; discriminate.
    + simpl in H. destruct (starts_with pat (c :: s)) eqn:E; [discriminate|].
      destruct (indexOf pat s) eqn:Ei; [discriminate|].
      destruct i as [|i].
      * apply occurs_at_0 in Hocc. congruence.
      * apply occurs_at_S in Hocc. exact (IH pat Ei i Hocc).
  - intros H. destruct (indexOf pat s) as [i|] eqn:E; [|reflexivity].
    apply indexOf_Some in E as [Hocc _]. exfalso. exact (H i Hocc).
Qed.

Lemma includes_iff (s pat : jsstring) :
  includes s pat = true <-> is_substring pat s.
Proof.
  unfold includes. destruct (indexOf pat s) as [i|] eqn:E.
  - apply indexOf_Some in E as [(pre & post & Hs & _) _].
    split; [intros _; exists pre, post; exact Hs | reflexivity].
  - split; [discriminate|]. intros (pre & post & Hs).
    exfalso. apply (proj1 (indexOf_None pat s) E (length pre)).
    exists pre, post. split; [exact Hs | reflexivity].
Qed.

(** Removal of the first occurrence: [s.replace(pat, '')]. *)
Lemma js_replace_empty_at (pre pat post : jsstring) :
  (forall j, j < length pre -> ~ occurs_at pat (pre ++ pat ++ post) j) ->
  js_replace (pre ++ pat ++ post) pat [] = pre ++ post.
Proof.
  intros Hfirst. unfold js_replace.
  assert (E : indexOf pat (pre ++ pat ++ post) = Some (length pre)).
  { apply indexOf_Some. split; [|exact Hfirst].
    exists pre, post. split; reflexivity. }
  rewrite E. simpl.
  rewrite firstn_app, Nat.sub_diag, firstn_all. simpl. rewrite app_nil_r.
  f_equal. rewrite skipn_app.
  replace (length pre + length pat - length pre) with (length pat) by lia.
  rewrite (skipn_all2 pre) by lia. simpl.
  rewrite skipn_app, Nat.sub_diag, skipn_all. reflexivity.
Qed.

Lemma js_replace_prefix (pat t : jsstring) : js_replace (pat ++ t) pat [] = t.
Proof.
  apply (js_replace_empty_at [] pat t). simpl. intros j Hj. lia.
Qed.

Lemma js_replace_absent (s pat repl : jsstring) :
  (forall i, ~ occurs_at pat s i) -> js_replace s pat repl = s.
Proof.
  intros H. unfold js_replace. apply indexOf_None in H. rewrite H. reflexivity.
Qed.

(* ================================================================== *)
(** ** The matcher against a relational semantics *)
(* ================================================================== *)

Section MatcherCorrect.
Variable R : Type.
Implicit Types (k : mstate -> option R) (x y z : mstate) (v : R).

Lemma star_loop_sound (r : regex)
    (IH : forall x k v, rmatch r x k = Some v ->
                        exists y, Matches r x y /\ k y = Some v) :
  forall n x k v, star_loop (rmatch r) k n x = Some v ->
                  exists z, Matches (RStar r) x z /\ k z = Some v.
Proof.
  induction n as [|n IHn]; intros x k v H; simpl in H.
  - exists x. split; [constructor | exact H].
  - destruct (rmatch r x _) as [w|] eqn:E.
    + injection H as ->. apply IH in E as (y & Hxy & Hk).
      destruct (length (rest y) <? length (rest x)) eqn:Hlt; [|discriminate].
      apply Nat.ltb_lt in Hlt. apply IHn in Hk as (z & Hyz & Hkz).
      exists z. split; [eapply M_StarStep; eassumption | exact Hkz].
    + exists x. split; [constructor | exact H].
Qed.

(** What the matcher returns comes from a match of the relation. *)
Lemma rmatch_sound (r : regex) :
  forall x k v, rmatch r x k = Some v -> exists y, Matches r x y /\ k y = Some v.
Proof.
  induction r as [|cc|r1 IH1 r2 IH2|r IH|r IH| |]; intros x k v H; simpl in H.
  - exists x. split; [constructor | exact H].
  - destruct x as [p s cs]. simpl in H. destruct s as [|c s]; [discriminate|].
    destruct (class_mem cc c) eqn:E; [|discriminate].
    eexists. split; [constructor; exact E | exact H].
  - apply IH1 in H as (y & Hxy & H). apply IH2 in H as (z & Hyz & H).
    exists z. split; [econstructor; eassumption | exact H].
  - eapply star_loop_sound; eassumption.
  - apply IH in H as (y & Hxy & H). eexists. split; [constructor; exact Hxy | exact H].
  - destruct (pos x =? 0) eqn:E; [|discriminate]. apply Nat.eqb_eq in E.
    exists x. split; [constructor; exact E | exact H].
  - destruct (rest x) eqn:E; [|discriminate].
    exists x. split; [constructor; exact E | exact H].
Qed.

Lemma star_loop_complete (r : regex)
    (IH : forall x k, rmatch r x k = None ->
                      forall y, Matches r x y -> k y = None) :
  forall n x k, length (rest x) <= n -> star_loop (rmatch r) k n x = None ->
                forall z, Matches (RStar r) x z -> k z = None.
Proof.
  induction n as [|n IHn]; intros x k Hn H z Hxz; simpl in H.
  - inversion Hxz; subst; [exact H | lia].
  - destruct (rmatch r x _) as [w|] eqn:E; [discriminate|].
    inversion Hxz as [| | |r' x'|r' x' y z' Hxy Hlt Hyz| | |]; subst; [exact H|].
    pose proof (IH _ _ E _ Hxy) as Hk. simpl in Hk.
    apply Nat.ltb_lt in Hlt as Hlt'. rewrite Hlt' in Hk.
    apply (IHn y k); [lia | exact Hk | exact Hyz].
Qed.

(** A failure of the matcher means that the continuation fails after
    every match of the relation: backtracking tries them all. *)
Lemma rmatch_complete (r : regex) :
  forall x k, rmatch r x k = None -> forall y, Matches r x y -> k y = None.
Proof.
  induction r as [|cc|r1 IH1 r2 IH2|r IH|r IH| |]; intros x k H y Hxy; simpl in H.
  - inversion Hxy; subst. exact H.
  - inversion Hxy as [|cc' c s p cs Hc| | | | | |]; subst. simpl in H.
    rewrite Hc in H. exact H.
  - inversion Hxy as [| |r1' r2' x' m z' Hxm Hmy| | | | |]; subst.
    exact (IH2 _ _ (IH1 _ _ H _ Hxm) _ Hmy).
  - eapply star_loop_complete; [exact IH | | exact H | exact Hxy]. lia.
  - inversion Hxy as [| | | | |r' x' m Hxm| |]; subst. exact (IH _ _ H _ Hxm).
  - inversion Hxy as [| | | | | |x' Hp|]; subst. rewrite Hp in H. simpl in H. exact H.
  - inversion Hxy as [| | | | | | |x' Hr]; subst. rewrite Hr in H. exact H.
Qed.
End MatcherCorrect.

(** A match consumes a prefix of the remaining text. *)
Lemma Matches_consumes (r : regex) (x y : mstate) :
  Matches r x y ->
  exists t, rest x = t ++ rest y /\ pos y = pos x + length t.
Proof.
  induction 1 as [x|cc c s p cs Hc|r1 r2 x y z _ IH1 _ IH2|r x
                 |r x y z _ IH1 Hlt _ IH2|r x y _ IH|x Hp|x Hr].
  - exists []. split; [reflexivity | simpl; lia].
  - exists [c]. split; [reflexivity | simpl; lia].
  - destruct IH1 as (t1 & E1 & P1), IH2 as (t2 & E2 & P2).
    exists (t1 ++ t2). rewrite E1, E2, <- app_assoc, length_app. split; [reflexivity | lia].
  - exists []. split; [reflexivity | simpl; lia].
  - destruct IH1 as (t1 & E1 & P1), IH2 as (t2 & E2 & P2).
    exists (t1 ++ t2). rewrite E1, E2, <- app_assoc, length_app. split; [reflexivity | lia].
  - exact IH.
  - exists []. split; [reflexivity | simpl; lia].
  - exists []. split; [reflexivity | simpl; lia].
Qed.

(** A successful test comes from a match at some start position, and a
    match at a start position makes the test succeed. *)
Lemma regex_exec_Some (r : regex) (s : jsstring) :
  forall p o, regex_exec r p s = Some o ->
  exists pre post, s = pre ++ post /\ occ_index o = p + length pre /\
    Matches r (MState (p + length pre) post []) (occ_end o) /\
    occ_caps o = caps (occ_end o) /\
    occ_text o = firstn (pos (occ_end o) - occ_index o) post.
Proof.
  induction s as [|c s IH]; intros p o H; simpl in H.
  - destruct (rmatch r (MState p [] []) _) as [y|] eqn:E; [|discriminate].
    injection H as <-. apply rmatch_sound in E as (y' & Hm & [= <-]).
    exists [], []. simpl. rewrite Nat.add_0_r. repeat split; assumption.
  - destruct (rmatch r (MState p (c :: s) []) _) as [y|] eqn:E.
    + injection H as <-. apply rmatch_sound in E as (y' & Hm & [= <-]).
      exists [], (c :: s). simpl. rewrite Nat.add_0_r. repeat split; assumption.
    + apply IH in H as (pre & post & -> & Hi & Hm & Hc & Ht).
      exists (c :: pre), post. simpl.
      replace (p + S (length pre)) with (S p + length pre) by lia.
      repeat split; assumption.
Qed.

Lemma regex_exec_None (r : regex) (s : jsstring) :
  forall p, regex_exec r p s = None ->
  forall pre post y, s = pre ++ post ->
    ~ Matches r (MState (p + length pre) post []) y.
Proof.
  induction s as [|c s IH]; intros p H pre post y Hs Hm; simpl in H.
  - destruct (rmatch r (MState p [] []) _) as [w|] eqn:E; [discriminate|].
    symmetry in Hs. apply app_eq_nil in Hs as [-> ->]. simpl in Hm.
    rewrite Nat.add_0_r in Hm.
    pose proof (rmatch_complete _ _ _ _ E _ Hm). discriminate.
  - destruct (rmatch r (MState p (c :: s) []) _) as [w|] eqn:E; [discriminate|].
    destruct pre as [|d pre].
    + simpl in Hs, Hm. subst post. rewrite Nat.add_0_r in Hm.
      pose proof (rmatch_complete _ _ _ _ E _ Hm). discriminate.
    + simpl in Hs. injection Hs as -> ->.
      apply (IH (S p) H pre post y eq_refl).
      simpl in Hm. replace (S p + length pre) with (p + S (length pre)) by lia.
      exact Hm.
Qed.

(* ------------------------------------------------------------------ *)
(** *** Matches of the building blocks *)

Lemma reads_trans (x y z : mstate) (t u : jsstring) :
  reads x t y -> reads y u z -> reads x (t ++ u) z.
Proof.
  intros (E1 & P1 & C1) (E2 & P2 & C2). unfold reads.
  rewrite E1, E2, <- app_assoc, length_app. repeat split; [lia | congruence].
Qed.

Lemma Matches_seq_inv (r1 r2 : regex) (x z : mstate) :
  Matches (RSeq r1 r2) x z -> exists y, Matches r1 x y /\ Matches r2 y z.
Proof.
  intros H. inversion H as [| |r1' r2' x' y z' Hxy Hyz| | | | |]; subst.
  exists y. split; assumption.
Qed.

Lemma Matches_class_inv (cc : charclass) (x y : mstate) :
  Matches (RClass cc) x y ->
  exists c, class_mem cc c = true /\ reads x [c] y.
Proof.
  intros H. inversion H as [|cc' c s p cs Hc| | | | | |]; subst.
  exists c. split; [exact Hc|]. unfold reads. simpl. repeat split. lia.
Qed.

Lemma Matches_star_class_inv (cc : charclass) (x y : mstate) :
  Matches (RStar (RClass cc)) x y -> exists t, all_in cc t /\ reads x t y.
Proof.
  intros H. remember (RStar (RClass cc)) as r eqn:Er.
  induction H as [| | |r x|r x y z Hxy _ Hlt Hyz IH| | |]; try discriminate.
  - exists []. split; [constructor|]. unfold reads. simpl. repeat split. lia.
  - injection Er as ->. specialize (IH eq_refl) as (t & Ht & Hr).
    apply Matches_class_inv in Hxy as (c & Hc & Hr1).
    exists ([c] ++ t). split; [constructor; assumption|].
    eapply reads_trans; eassumption.
Qed.


Lemma class_mem_char (c d : ascii) : class_mem (CChar c) d = true <-> c = d.
Proof. simpl. apply ascii_eqb_eq. Qed.


Lemma Matches_class_intro (cc : charclass) (c : ascii) (p : nat) (s cs : _) :
  class_mem cc c = true ->
  Matches (RClass cc) (MState p (c :: s) cs) (MState (p + 1) s cs).
Proof. intros H. rewrite Nat.add_1_r. constructor. exact H. Qed.

Lemma Matches_star_class_intro (cc : charclass) (t : jsstring) :
  all_in cc t -> forall p s cs,
  Matches (RStar (RClass cc)) (MState p (t ++ s) cs) (MState (p + length t) s cs).
Proof.
  induction 1 as [|c t Hc Ht IH]; intros p s cs; simpl.
  - rewrite Nat.add_0_r. constructor.
  - eapply M_StarStep with (y := MState (S p) (t ++ s) cs).
    + constructor. exact Hc.
    + simpl. lia.
    + replace (p + S (length t)) with (S p + length t) by lia. apply IH.
Qed.



(* ------------------------------------------------------------------ *)
(** *** The statements [importRegex] matches *)



Lemma firstn_consumed (p : nat) (t r : jsstring) :
  firstn (p + length t - p) (t ++ r) = t.
Proof.
  replace (p + length t - p) with (length t) by lia.
  rewrite firstn_app, Nat.sub_diag, firstn_all. simpl. apply app_nil_r.
Qed.




(* ------------------------------------------------------------------ *)
(** *** A statement is delimited by its quotes *)












(* ------------------------------------------------------------------ *)
(** *** The occurrences of a global regular expression *)

Lemma found_in_shift (r : regex) (pre s : jsstring) (p : nat) (o : occurrence) :
  found_in r s (p + length pre) o -> found_in r (pre ++ s) p o.
Proof.
  intros (pre' & post & -> & Hi & Hm & Hc & Ht).
  exists (pre ++ pre'), post. rewrite length_app, Nat.add_assoc, app_assoc.
  repeat split; assumption.
Qed.

Lemma found_in_end (r : regex) (s : jsstring) (p : nat) (o : occurrence) :
  found_in r s p o ->
  exists pre t, s = pre ++ t ++ rest (occ_end o) /\
    pos (occ_end o) = p + length pre + length t /\
    occ_index o = p + length pre /\ occ_text o = t.
Proof.
  intros (pre & post & -> & Hi & Hm & Hc & Ht).
  apply Matches_consumes in Hm as (t & Er & Ep). simpl in Er, Ep.
  exists pre, t. rewrite Er in *. repeat split; try assumption.
  rewrite Ht, Ep, Hi. apply firstn_consumed.
Qed.

Lemma regex_occurrences_found (r : regex) :
  forall fuel p s o, In o (regex_occurrences r fuel p s) -> found_in r s p o.
Proof.
  induction fuel as [|fuel IH]; intros p s o H; simpl in H; [contradiction|].
  destruct (regex_exec r p s) as [o1|] eqn:E; [|contradiction].
  pose proof (regex_exec_Some _ _ _ _ E) as Hf. fold (found_in r s p o1) in Hf.
  destruct H as [<-|H]; [exact Hf|].
  apply found_in_end in Hf as (pre & t & -> & Hp & Hi & _).
  destruct (occ_index o1 <? pos (occ_end o1)).
  - apply IH in H. rewrite app_assoc. apply found_in_shift.
    rewrite length_app, Nat.add_assoc, <- Hp. exact H.
  - destruct (rest (occ_end o1)) as [|c u]; [contradiction|].
    apply IH in H.
    replace (pre ++ t ++ c :: u) with ((pre ++ t ++ [c]) ++ u)
      by (rewrite <- !app_assoc; reflexivity).
    apply found_in_shift. rewrite !length_app. simpl.
    replace (p + (length pre + (length t + 1))) with (S (pos (occ_end o1))) by lia.
    exact H.
Qed.

(** The fuel of [regex_matchAll] is never used up. *)
Lemma regex_occurrences_fuel (r : regex) :
  forall f1 f2 p s, length s < f1 -> length s < f2 ->
  regex_occurrences r f1 p s = regex_occurrences r f2 p s.
Proof.
  induction f1 as [|f1 IH]; intros f2 p s H1 H2; [lia|].
  destruct f2 as [|f2]; [lia|]. simpl.
  destruct (regex_exec r p s) as [o|] eqn:E; [|reflexivity]. f_equal.
  pose proof (regex_exec_Some _ _ _ _ E) as Hf. fold (found_in r s p o) in Hf.
  apply found_in_end in Hf as (pre & t & -> & Hp & Hi & _).
  rewrite !length_app in H1, H2.
  destruct (occ_index o <? pos (occ_end o)) eqn:Hlt.
  - apply Nat.ltb_lt in Hlt. apply IH; lia.
  - destruct (rest (occ_end o)) as [|c u]; [reflexivity|].
    simpl in H1, H2. apply IH; lia.
Qed.








(* ================================================================== *)
(** ** Facts about the alias table *)
(* ================================================================== *)

Lemma bind_Ok {A B : Type} (m : result A) (f : A -> result B) (b : B) :
  bind m f = Ok b -> exists a, m = Ok a /\ f a = Ok b.
Proof. destruct m as [a| |]; simpl; try discriminate. intros H. exists a. auto. Qed.

Lemma mapM_Ok {A B : Type} (f : A -> result B) (l : list A) (bs : list B) :
  mapM f l = Ok bs -> Forall2 (fun a b => f a = Ok b) l bs.
Proof.
  revert bs. induction l as [|a l IH]; intros bs H; simpl in H.
  - injection H as <-. constructor.
  - apply bind_Ok in H as (b & Hb & H). apply bind_Ok in H as (bs' & Hbs & H).
    injection H as <-. constructor; [exact Hb | apply IH; exact Hbs].
Qed.

Lemma sort_insert_perm {A : Type} (cmp : A -> A -> Z) (a : A) (l : list A) :
  Permutation (sort_insert cmp a l) (a :: l).
Proof.
  induction l as [|b l IH]; simpl.
  - apply Permutation_refl.
  - destruct (cmp a b <=? 0)%Z.
    + apply Permutation_refl.
    + apply perm_trans with (b :: a :: l); [apply perm_skip; exact IH | apply perm_swap].
Qed.

Lemma js_sort_perm {A : Type} (cmp : A -> A -> Z) (l : list A) :
  Permutation (js_sort cmp l) l.
Proof.
  induction l as [|a l IH]; simpl.
  - apply perm_nil.
  - apply perm_trans with (a :: js_sort cmp l);
      [apply sort_insert_perm | apply perm_skip; exact IH].
Qed.

Lemma by_alias_length_le (a b : alias_rule) :
  (by_alias_length a b <=? 0)%Z = true <-> longer_first a b.
Proof. unfold by_alias_length, longer_first. rewrite Z.leb_le. lia. Qed.

Lemma sort_insert_sorted (a : alias_rule) (l : list alias_rule) :
  StronglySorted longer_first l ->
  StronglySorted longer_first (sort_insert by_alias_length a l).
Proof.
  induction 1 as [|b l Hs IH Hb]; simpl.
  - repeat constructor.
  - destruct (by_alias_length a b <=? 0)%Z eqn:E.
    + apply by_alias_length_le in E. constructor.
      * constructor; assumption.
      * constructor; [exact E|].
        eapply Forall_impl; [|exact Hb]. unfold longer_first in *. intros c Hc. lia.
    + constructor; [exact IH|].
      apply (Permutation_Forall (Permutation_sym (sort_insert_perm _ a l))).
      constructor; [|exact Hb].
      unfold longer_first. unfold by_alias_length in E. apply Z.leb_gt in E. lia.
Qed.

Lemma js_sort_sorted (l : list alias_rule) :
  StronglySorted longer_first (js_sort by_alias_length l).
Proof.
  induction l as [|a l IH]; simpl; [constructor | apply sort_insert_sorted; exact IH].
Qed.

Lemma preparePaths_Ok (tsconfig : jsvalue) (excludedPaths : list jsstring)
    (table : list alias_rule) :
  preparePaths tsconfig excludedPaths = Ok table ->
  exists entries rules,
    config_paths_entries tsconfig = Ok entries /\
    Forall2 (fun e r => build_rule e = Ok r) (kept_entries excludedPaths entries) rules /\
    table = js_sort by_alias_length rules.
Proof.
  unfold preparePaths. intros H.
  apply bind_Ok in H as (entries & He & H). apply bind_Ok in H as (rules & Hr & H).
  injection H as <-. exists entries, rules. repeat split; [exact He|].
  apply mapM_Ok. exact Hr.
Qed.

Lemma build_rule_total (entry : jsstring * jsvalue) :
  well_formed_entry entry -> exists r, build_rule entry = Ok r.
Proof.
  destruct entry as [a v]. intros [(re & Hre) (target & others & Hv)].
  cbn [fst snd] in Hre, Hv. subst v. unfold build_rule. rewrite Hre.
  eexists. reflexivity.
Qed.

Lemma mapM_total {A B : Type} (f : A -> result B) (l : list A) :
  Forall (fun a => exists b, f a = Ok b) l -> exists bs, mapM f l = Ok bs.
Proof.
  induction 1 as [|a l (b & Hb) _ (bs & Hbs)]; simpl.
  - exists []. reflexivity.
  - rewrite Hb, Hbs. simpl. exists (b :: bs). reflexivity.
Qed.

Lemma insert_index_In {A : Type} (x y : N * A) (l : list (N * A)) :
  In y (insert_index x l) -> y = x \/ In y l.
Proof.
  induction l as [|z l IH]; simpl.
  - intros [->|[]]. left. reflexivity.
  - destruct (fst x <=? fst z)%N; simpl.
    + intros [->|[->|H]]; auto.
    + intros [->|H]; [auto|]. destruct (IH H); auto.
Qed.

(** [Object.entries] lists properties of the object and no others. *)
Lemma ordered_props_In {A : Type} (props : list (jsstring * A)) (e : jsstring * A) :
  In e (ordered_props props) -> In e props.
Proof.
  unfold ordered_props. intros He. apply in_app_or in He as [He|He].
  - apply in_map_iff in He as ([n kv] & <- & Hkv). simpl.
    assert (G : forall l, In (n, kv) (fold_right insert_index [] l) -> In (n, kv) l).
    { induction l as [|x l IH]; simpl; [auto|]. intros H.
      destruct (insert_index_In _ _ _ H) as [->|H'];
        [left; reflexivity | right; apply IH; exact H']. }
    apply G in Hkv. apply in_flat_map in Hkv as (kv' & Hkv' & Hx).
    destruct (array_index (fst kv')); [|contradiction].
    destruct Hx as [[= _ <-]|[]]. exact Hkv'.
  - apply filter_In in He as [He _]. exact He.
Qed.

(** On a mapping of well-formed entries the builder returns a table. *)
Lemma preparePaths_total (props : list (jsstring * jsvalue))
    (excludedPaths : list jsstring) :
  Forall well_formed_entry props ->
  exists table, preparePaths (tsconfig_with (VObject props)) excludedPaths = Ok table.
Proof.
  intros Hwf. unfold preparePaths.
  change (config_paths_entries (tsconfig_with (VObject props)))
    with (Ok (ordered_props props)).
  cbn [bind].
  destruct (mapM_total build_rule (kept_entries excludedPaths (ordered_props props)))
    as (rules & ->).
  - apply Forall_forall. intros e He. apply build_rule_total.
    unfold kept_entries in He. apply filter_In in He as [He _].
    rewrite Forall_forall in Hwf. apply Hwf, ordered_props_In, He.
  - simpl. eexists. reflexivity.
Qed.

(** The loop of the scanner's callback returns the first rule, in table
    order, whose matcher accepts the path. *)
Lemma first_rule_Some (paths : list alias_rule) (p : jsstring) (r : alias_rule) :
  first_rule paths p = Some r <->
  exists before after, paths = before ++ r :: after /\
    regex_test (aliasRegex r) p = true /\
    Forall (fun r' => regex_test (aliasRegex r') p = false) before.
Proof.
  induction paths as [|a paths IH]; simpl.
  - split; [discriminate|]. intros (before & after & E & _).
    destruct before; discriminate.
  - destruct (regex_test (aliasRegex a) p) eqn:Ea.
    + split.
      * intros [= <-]. exists [], paths. repeat split; [exact Ea | constructor].
      * intros (before & after & E & Hr & Hb). destruct before as [|b before].
        -- simpl in E. congruence.
        -- simpl in E. injection E as <- _. inversion Hb; subst. congruence.
    + rewrite IH. split.
      * intros (before & after & -> & Hr & Hb). exists (a :: before), after.
        repeat split; [exact Hr | constructor; assumption].
      * intros (before & after & E & Hr & Hb). destruct before as [|b before].
        -- simpl in E. injection E as <- _. congruence.
        -- simpl in E. injection E as <- ->. inversion Hb; subst.
           exists before, after. auto.
Qed.

Lemma first_rule_None (paths : list alias_rule) (p : jsstring) :
  first_rule paths p = None <->
  Forall (fun r => regex_test (aliasRegex r) p = false) paths.
Proof.
  induction paths as [|a paths IH]; simpl.
  - split; [constructor | reflexivity].
  - destruct (regex_test (aliasRegex a) p) eqn:Ea.
    + split; [discriminate|]. intros H. inversion H; subst. congruence.
    + rewrite IH. split; [intros H; constructor; assumption|].
      intros H. inversion H; subst. assumption.
Qed.

(* ------------------------------------------------------------------ *)
(** *** Aliases made of a plain prefix and a trailing wildcard *)

Lemma plain_char_facts (c : ascii) :
  is_syntax_char c = false ->
  is_unmodelled_syntax c = false /\ ascii_eqb c "*" = false /\
  ascii_eqb c "^" = false /\ ascii_eqb c "$" = false /\ atom_class c = CChar c.
Proof.
  unfold is_syntax_char, is_unmodelled_syntax, atom_class. simpl.
  intros H. repeat (apply orb_false_iff in H as [? H]).
  repeat match goal with E : ascii_eqb c _ = false |- _ => rewrite E; clear E end.
  auto.
Qed.

Lemma replace_stars_plain (s t : jsstring) :
  plain s -> replace_stars (s ++ t) = s ++ replace_stars t.
Proof.
  induction 1 as [|c s Hc _ IH]; simpl; [reflexivity|].
  apply plain_char_facts in Hc as (_ & -> & _). rewrite IH. reflexivity.
Qed.

Lemma parse_pattern_plain (s t : jsstring) :
  plain s -> starts_with (js "*") t = false ->
  parse_pattern (s ++ t) = (r <- parse_pattern t ;; Ok (seq_lit s r)).
Proof.
  intros Hs Ht. induction Hs as [|c s Hc Hs IH].
  - simpl. destruct (parse_pattern t); reflexivity.
  - cbn [app parse_pattern].
    apply plain_char_facts in Hc as (-> & -> & -> & -> & ->).
    destruct (s ++ t) as [|d u] eqn:E.
    + destruct s; [|discriminate]. simpl in E. subst t. reflexivity.
    + assert (Hd : ascii_eqb d "*" = false).
      { destruct s as [|d' s'].
        - simpl in E. subst t. simpl in Ht.
          destruct (ascii_eqb d "*") eqn:Ed; [|reflexivity].
          apply ascii_eqb_eq in Ed as ->. discriminate.
        - simpl in E. injection E as -> _. inversion Hs; subst.
          match goal with H : is_syntax_char d = false |- _ =>
            apply plain_char_facts in H as (_ & -> & _) end. reflexivity. }
      rewrite Hd, IH. destruct (parse_pattern t); reflexivity.
Qed.

Lemma new_RegExp_prefix (prefix : jsstring) :
  plain prefix ->
  new_RegExp (alias_source (prefix ++ wildcard)) = Ok (prefix_matcher prefix).
Proof.
  intros Hp. unfold new_RegExp, alias_source.
  rewrite replace_stars_plain by exact Hp.
  change (js "^" ++ (prefix ++ replace_stars wildcard) ++ js "$")
    with ("^"%char :: (prefix ++ replace_stars wildcard) ++ js "$").
  rewrite <- app_assoc. cbn [parse_pattern].
  change (is_unmodelled_syntax "^") with false.
  change (ascii_eqb "^" "*") with false. change (ascii_eqb "^" "^") with true.
  cbv iota. rewrite parse_pattern_plain by (exact Hp || reflexivity).
  reflexivity.
Qed.

Lemma indexOf_wildcard (prefix : jsstring) :
  plain prefix -> indexOf wildcard (prefix ++ wildcard) = Some (length prefix).
Proof.
  induction 1 as [|c s Hc Hs IH]; [reflexivity|].
  cbn [app indexOf length]. rewrite IH.
  assert (E : starts_with wildcard (c :: s ++ wildcard) = false); [|rewrite E; reflexivity].
  change wildcard with ["/"%char; "*"%char]. cbn [starts_with].
  destruct (ascii_eqb "/" c); [|reflexivity]. cbn [andb].
  destruct s as [|d s']; [reflexivity|]. cbn [app starts_with].
  inversion Hs as [|d' s'' Hd Hs']; subst.
  apply plain_char_facts in Hd as (_ & Hd & _).
  destruct (ascii_eqb "*" d) eqn:Ed; [|reflexivity].
  apply ascii_eqb_eq in Ed as <-. discriminate.
Qed.

Lemma strip_wildcard (prefix : jsstring) :
  plain prefix -> js_replace (prefix ++ wildcard) wildcard [] = prefix.
Proof.
  intros Hp. unfold js_replace. rewrite indexOf_wildcard by exact Hp. simpl.
  rewrite firstn_app, Nat.sub_diag, firstn_all. simpl. rewrite app_nil_r.
  rewrite skipn_all2; [apply app_nil_r|]. rewrite length_app. simpl. lia.
Qed.

Lemma build_rule_prefix (prefix : jsstring) (v : jsvalue) (r : alias_rule) :
  plain prefix -> build_rule (prefix ++ wildcard, v) = Ok r ->
  aliasRegex r = prefix_matcher prefix /\ alias r = prefix.
Proof.
  intros Hp H. unfold build_rule in H.
  rewrite new_RegExp_prefix in H by exact Hp. simpl in H.
  apply bind_Ok in H as (first & _ & H). apply bind_Ok in H as (q & _ & H).
  injection H as <-. simpl. split; [reflexivity | apply strip_wildcard; exact Hp].
Qed.

Lemma Matches_seq_lit_inv (s : jsstring) (r : regex) (x z : mstate) :
  Matches (seq_lit s r) x z -> exists y, reads x s y /\ Matches r y z.
Proof.
  revert x. induction s as [|c s IH]; intros x H; simpl in H.
  - exists x. split; [|exact H]. unfold reads. simpl. repeat split. lia.
  - apply Matches_seq_inv in H as (m & H1 & H2).
    apply Matches_class_inv in H1 as (d & Hd & Hr1). apply class_mem_char in Hd as <-.
    apply IH in H2 as (y & Hr2 & H2). exists y. split; [|exact H2].
    exact (reads_trans _ _ _ _ _ Hr1 Hr2).
Qed.

Lemma Matches_seq_lit_intro (s : jsstring) (r : regex) (z : mstate) :
  forall p u cs, Matches r (MState (p + length s) u cs) z ->
  Matches (seq_lit s r) (MState p (s ++ u) cs) z.
Proof.
  induction s as [|c s IH]; intros p u cs H; simpl in *.
  - rewrite Nat.add_0_r in H. exact H.
  - apply M_Seq with (y := MState (S p) (s ++ u) cs).
    + constructor. apply ascii_eqb_refl.
    + apply IH. replace (S p + length s) with (p + S (length s)) by lia. exact H.
Qed.

(** The import paths a [prefix/*] alias accepts. *)
Lemma prefix_matcher_test (prefix p : jsstring) :
  regex_test (prefix_matcher prefix) p = true <->
  exists t, p = prefix ++ slash :: t /\ all_in CDot t.
Proof.
  unfold regex_test. split.
  - destruct (regex_exec (prefix_matcher prefix) 0 p) as [o|] eqn:E; [|discriminate].
    intros _. apply regex_exec_Some in E as (pre & post & -> & _ & Hm & _).
    unfold prefix_matcher in Hm. apply Matches_seq_inv in Hm as (y0 & Hb & Hm).
    inversion Hb as [| | | | | |x Hpos|]; subst. simpl in Hpos.
    destruct pre; [|discriminate]. simpl.
    apply Matches_seq_lit_inv in Hm as (y1 & (E1 & _) & Hm).
    unfold wildcard_tail in Hm.
    apply Matches_seq_inv in Hm as (y2 & H2 & Hm).
    apply Matches_class_inv in H2 as (c & Hc & (E2 & _)).
    apply class_mem_char in Hc as <-.
    apply Matches_seq_inv in Hm as (y3 & H3 & Hm).
    apply Matches_star_class_inv in H3 as (t & Ht & (E3 & _)).
    apply Matches_seq_inv in Hm as (y4 & H4 & Hm).
    inversion H4 as [| | | | | | |x Hr]; subst.
    simpl in E1. rewrite E1, E2, E3, Hr, app_nil_r.
    exists t. split; [reflexivity | exact Ht].
  - intros (t & -> & Ht).
    destruct (regex_exec (prefix_matcher prefix) 0 (prefix ++ slash :: t)) eqn:E;
      [reflexivity|].
    exfalso.
    apply (regex_exec_None _ _ _ E [] (prefix ++ slash :: t)
             (MState (0 + length prefix + 1 + length t) [] []) eq_refl).
    unfold prefix_matcher. simpl.
    apply M_Seq with (y := MState 0 (prefix ++ slash :: t) []); [constructor; reflexivity|].
    apply Matches_seq_lit_intro. unfold wildcard_tail.
    eapply M_Seq; [apply Matches_class_intro; apply ascii_eqb_refl|].
    eapply M_Seq.
    + pose proof (Matches_star_class_intro CDot t Ht (length prefix + 1) [] []) as Hs.
      rewrite app_nil_r in Hs. exact Hs.
    + eapply M_Seq; [constructor; reflexivity | constructor].
Qed.

(* ================================================================== *)
(** ** Facts about the joined path *)
(* ================================================================== *)


















(* ================================================================== *)
(** ** Facts about the batch loop *)
(* ================================================================== *)

Section BatchFacts.
Variables (cwd : jsstring) (dry : bool) (paths : list alias_rule).

Lemma findMatches_Ok (fs : filesystem) (file : jsstring)
    (matches : list import_match) (content : jsstring) :
  findMatches fs file paths = Ok (matches, content) ->
  fs file = Some content /\ matches = scan_content paths content.
Proof.
  unfold findMatches, readFileSync. destruct (fs file) as [c|]; simpl; [|discriminate].
  intros [= <- <-]. auto.
Qed.

Lemma findMatches_unreadable (fs : filesystem) (file : jsstring) :
  fs file = None -> findMatches fs file paths = Throw (FileAccessError file).
Proof. unfold findMatches, readFileSync. intros ->. reflexivity. Qed.

Lemma writeResultToFile_files (w : world) (file result f : jsstring) :
  f <> file -> files (writeResultToFile dry w file result) f = files w f.
Proof.
  intros Hf. unfold writeResultToFile, writeFileSync. simpl.
  destruct dry; [reflexivity|].
  apply str_eqb_neq in Hf. rewrite Hf. reflexivity.
Qed.

(** The loop over a list in two parts. *)
Lemma forEach_file_app (l1 l2 : list jsstring) :
  forall w n,
  forEach_file cwd dry paths (l1 ++ l2) w n =
  match forEach_file cwd dry paths l1 w n with
  | (w1, Ok n1) => forEach_file cwd dry paths l2 w1 n1
  | (w1, Throw e) => (w1, Throw e)
  | (w1, Unmodelled) => (w1, Unmodelled)
  end.
Proof.
  induction l1 as [|file l1 IH]; intros w n; simpl; [reflexivity|].
  destruct (findMatches (files w) file paths) as [[matches content]|e|]; try reflexivity.
  destruct matches; apply IH.
Qed.

(** The loop writes only files of its list, and submits only those. *)
Lemma forEach_file_frame (l : list jsstring) :
  forall w n w1 r, forEach_file cwd dry paths l w n = (w1, r) ->
  (forall f, ~ In f l -> files w1 f = files w f) /\
  (forall e, In e (submitted w1) -> In e (submitted w) \/ In (fst e) l).
Proof.
  induction l as [|file l IH]; intros w n w1 r H; simpl in H.
  - injection H as <- <-. auto.
  - destruct (findMatches (files w) file paths) as [[matches content]|e|] eqn:E.
    + destruct matches as [|m matches].
      * apply IH in H as [Hf Hs]. split.
        -- intros f Hn. apply Hf. intros Hin. apply Hn. right. exact Hin.
        -- intros e He. destruct (Hs e He); [left | right; right]; assumption.
      * apply IH in H as [Hf Hs]. split.
        -- intros f Hn. rewrite Hf by (intros Hin; apply Hn; right; exact Hin).
           apply writeResultToFile_files. intros ->. apply Hn. left. reflexivity.
        -- intros e He. destruct (Hs e He) as [Hin|Hin]; [|right; right; exact Hin].
           simpl in Hin. apply in_app_or in Hin as [Hin|[<-|[]]];
             [left; exact Hin | right; left; reflexivity].
    + injection H as <- <-. split; [reflexivity | auto].
    + injection H as <- <-. split; [reflexivity | auto].
Qed.

(** A file that cannot be read cannot be read after the loop either. *)
Lemma forEach_file_unreadable (l : list jsstring) (bad : jsstring) :
  forall w n w1 r, forEach_file cwd dry paths l w n = (w1, r) ->
  files w bad = None -> files w1 bad = None.
Proof.
  induction l as [|file l IH]; intros w n w1 r H Hbad; simpl in H.
  - injection H as <- <-. exact Hbad.
  - destruct (findMatches (files w) file paths) as [[matches content]|e|] eqn:E.
    + apply findMatches_Ok in E as [Hfile _].
      destruct matches as [|m matches]; [exact (IH _ _ _ _ H Hbad)|].
      apply (IH _ _ _ _ H). rewrite writeResultToFile_files; [exact Hbad|].
      intros ->. congruence.
    + injection H as <- <-. exact Hbad.
    + injection H as <- <-. exact Hbad.
Qed.

End BatchFacts.

(* ================================================================== *)
(** ** The claims of the specification *)
(* ================================================================== *)

(** C1 (defect of the code).  The rewrite is meant to replace the import
    path literal of a matched statement and nothing else.  The code
    replaces the first occurrence of the path text in the statement: for
    [import utils from 'utils';] under the alias [utils] that occurrence
    is the binding, so the bindings clause changes and the literal stays,
    whereas in [import u from 'utils';] the literal is replaced. *)
Theorem replaceAliases_rewrites_binding :
  exists table,
    preparePaths utils_config [] = Ok table /\
    let out := replaceImports project_dir false [home_ts] table
                 (World (one_file home_ts (js "import utils from 'utils';")) []) in
    snd out = Ok 1 /\
    files (fst out) home_ts = Some (js "import ../utils from 'utils';") /\
    files (fst (replaceImports project_dir false [home_ts] table
                  (World (one_file home_ts (js "import u from 'utils';")) [])))
          home_ts
    = Some (js "import u from '../utils';").
Proof.
  eexists. split; [reflexivity|]. vm_compute. repeat split; reflexivity.
Qed.




(** C3, as stated, fails: when the first file of the list cannot be read,
    the batch stops with the error of that read, and the readable file
    after it, which holds an alias import, keeps its text; taken alone,
    that file is rewritten. *)
Lemma replaceImports_stops_at_unreadable :
  exists table,
    preparePaths app_config [] = Ok table /\
    let fs := one_file home_ts (js "import x from '@app/x';") in
    let out := replaceImports project_dir false [js "missing.ts"; home_ts] table
                 (World fs []) in
    fs (js "missing.ts") = None /\
    snd out = Throw (FileAccessError (js "missing.ts")) /\
    files (fst out) home_ts = Some (js "import x from '@app/x';") /\
    submitted (fst out) = [] /\
    snd (replaceImports project_dir false [home_ts] table (World fs [])) = Ok 1.
Proof.
  eexists. split; [reflexivity|]. vm_compute. repeat split; reflexivity.
Qed.

(** C3 (amended).  A failure while reading a file is not caught: the batch
    stops at the first file that cannot be read and ends with the error of
    that read.  The files before it have been scanned and rewritten, the
    files after it are neither scanned nor rewritten nor submitted, and no
    count is reported.  An empty file list yields a count of zero and no
    error. *)
Theorem replaceImports_aborts_on_unreadable :
  forall (cwd : jsstring) (dry : bool) (paths : list alias_rule)
         (before after : list jsstring) (bad : jsstring) (w w1 : world) (n : nat),
    files w bad = None ->
    replaceImports cwd dry before paths w = (w1, Ok n) ->
    replaceImports cwd dry (before ++ bad :: after) paths w
      = (w1, Throw (FileAccessError bad)) /\
    (forall f, ~ In f before -> files w1 f = files w f) /\
    (forall e, In e (submitted w1) -> In e (submitted w) \/ In (fst e) before) /\
    replaceImports cwd dry [] paths w = (w, Ok 0).
Proof.
  intros cwd dry paths before after bad w w1 n Hbad Hbefore.
  unfold replaceImports in *.
  destruct (forEach_file_frame _ _ _ _ _ _ _ _ Hbefore) as [Hf Hs].
  repeat split; try assumption.
  rewrite forEach_file_app, Hbefore. simpl.
  rewrite findMatches_unreadable; [reflexivity|].
  exact (forEach_file_unreadable _ _ _ _ _ _ _ _ _ Hbefore Hbad).
Qed.

Lemma replaceImports_aborts_on_unreadable_witness :
  exists w1,
    replaceImports project_dir false [home_ts; js "missing.ts"; index_ts] []
      (World (one_file home_ts (js "const a = 1;")) [])
    = (w1, Throw (FileAccessError (js "missing.ts"))).
Proof.
  eexists.
  apply (replaceImports_aborts_on_unreadable project_dir false [] [home_ts] [index_ts]
           (js "missing.ts") (World (one_file home_ts (js "const a = 1;")) []) _ 0).
  - reflexivity.
  - reflexivity.
Defined.

(** C4, as stated, fails: a [paths] entry that is malformed, here a
    number, raises nothing and yields the empty table. *)
Lemma preparePaths_number_gives_empty_table :
  preparePaths (tsconfig_with (VNumber 42)) [] = Ok [].
Proof. reflexivity. Qed.

(** C4 (amended).  When the configuration has no [paths] mapping, that is,
    when reading [compilerOptions.paths] throws or gives [undefined] or
    [null], the table builder throws a [TypeError] and builds no table; it
    reads no file.  A malformed [paths] value is not rejected. *)
Theorem preparePaths_without_paths_throws :
  forall (tsconfig : jsvalue) (excludedPaths : list jsstring),
    config_paths tsconfig = Throw TypeError \/
    config_paths tsconfig = Ok VUndefined \/
    config_paths tsconfig = Ok VNull ->
    preparePaths tsconfig excludedPaths = Throw TypeError.
Proof.
  intros tsconfig excl H. unfold preparePaths, config_paths_entries.
  unfold config_paths in H.
  destruct (js_get tsconfig (js "compilerOptions")) as [co|e|]; cbn [bind] in *.
  - destruct (js_get co (js "paths")) as [ps|e|]; cbn [bind] in *.
    + destruct H as [H|[H|H]]; [discriminate| |];
        injection H as H; subst ps; reflexivity.
    + destruct H as [H|[H|H]]; [|discriminate|discriminate].
      injection H as H; subst e. reflexivity.
    + destruct H as [H|[H|H]]; discriminate.
  - destruct H as [H|[H|H]]; [|discriminate|discriminate].
    injection H as H; subst e. reflexivity.
  - destruct H as [H|[H|H]]; discriminate.
Qed.

Lemma preparePaths_without_paths_throws_witness :
  preparePaths (VObject [(js "compilerOptions", VObject [])]) [js "app"] = Throw TypeError.
Proof.
  apply (preparePaths_without_paths_throws
           (VObject [(js "compilerOptions", VObject [])]) [js "app"]).
  right. left. reflexivity.
Defined.

(** C5.  The builder returns a table for every mapping of well-formed
    entries; the table is ordered by non-increasing length of the stripped
    alias, the scanner gives a found import path the first rule in table
    order whose matcher accepts it, and records nothing for a path that no
    rule accepts.  With the aliases [@app/*] and [@app/core/*] both matchers
    accept [@app/core/widgets/x], and the path resolves through
    [@app/core/*]. *)
Theorem alias_table_longest_prefix_first :
  (forall props excludedPaths,
     Forall well_formed_entry props ->
     exists table,
       preparePaths (tsconfig_with (VObject props)) excludedPaths = Ok table) /\
  (forall tsconfig excludedPaths table,
     preparePaths tsconfig excludedPaths = Ok table ->
     StronglySorted longer_first table) /\
  (forall paths p r,
     first_rule paths p = Some r <->
     exists before after, paths = before ++ r :: after /\
       regex_test (aliasRegex r) p = true /\
       Forall (fun r' => regex_test (aliasRegex r') p = false) before) /\
  (forall paths content m,
     In m (scan_content paths content) <->
     exists o r, In o (regex_matchAll importRegex content) /\
       first_rule paths (capture1 o) = Some r /\
       m = ImportMatch (occ_text o) (alias r) (capture1 o) (path r)) /\
  (exists table r,
     preparePaths app_config [] = Ok table /\
     map alias table = [js "@app/core"; js "@app"] /\
     forallb (fun r' => regex_test (aliasRegex r') (js "@app/core/widgets/x")) table = true /\
     first_rule table (js "@app/core/widgets/x") = Some r /\
     alias r = js "@app/core" /\ path r = js "src/app/core").
Proof.
  split; [exact preparePaths_total|]. split; [|split; [|split]].
  - intros tsconfig excl table H.
    apply preparePaths_Ok in H as (entries & rules & _ & _ & ->).
    apply js_sort_sorted.
  - apply first_rule_Some.
  - intros paths content m. unfold scan_content. rewrite in_flat_map. split.
    + intros (o & Ho & Hm). unfold scan_callback in Hm.
      destruct (first_rule paths (capture1 o)) as [r|] eqn:E; [|contradiction].
      destruct Hm as [<-|[]]. exists o, r. auto.
    + intros (o & r & Ho & E & ->). exists o. split; [exact Ho|].
      unfold scan_callback. rewrite E. left. reflexivity.
  - do 2 eexists. split; [reflexivity|]. vm_compute. repeat split; reflexivity.
Qed.

Lemma alias_table_longest_prefix_first_witness :
  exists table, preparePaths app_config [] = Ok table /\ StronglySorted longer_first table.
Proof.
  eexists. split; [reflexivity|].
  apply (proj1 (proj2 alias_table_longest_prefix_first) app_config []). reflexivity.
Defined.

(** C6.  The builder drops an alias exactly when the alias contains an
    entry of the exclusion list as a substring: the table holds one rule for
    each entry that is kept and none for the others.  With the alias
    [@app/*] and the exclusion list [app] the table is empty. *)
Theorem excluded_aliases_are_dropped :
  (forall tsconfig excludedPaths entries table,
     config_paths_entries tsconfig = Ok entries ->
     preparePaths tsconfig excludedPaths = Ok table ->
     exists rules,
       Forall2 (fun e r => build_rule e = Ok r) (kept_entries excludedPaths entries) rules /\
       Permutation rules table) /\
  (forall excludedPaths entries e,
     In e (kept_entries excludedPaths entries) <->
     In e entries /\
     ~ exists excludedPath, In excludedPath excludedPaths /\ is_substring excludedPath (fst e)) /\
  preparePaths (tsconfig_with (VObject [(js "@app/*", targets ["src/app"%string])]))
               [js "app"] = Ok [].
Proof.
  split; [|split].
  - intros tsconfig excl entries table He H.
    apply preparePaths_Ok in H as (entries' & rules & He' & Hr & ->).
    rewrite He in He'. injection He' as <-.
    exists rules. split; [exact Hr|]. apply Permutation_sym, js_sort_perm.
  - intros excl entries e. unfold kept_entries. rewrite filter_In. 
    assert (Hx : is_excluded excl (fst e) = true <->
                 exists ex, In ex excl /\ is_substring ex (fst e)).
    { unfold is_excluded. rewrite existsb_exists.
      split; intros (ex & Hin & H); exists ex; (split; [exact Hin|]);
        apply includes_iff; exact H. }
    split; intros [Hin H]; (split; [exact Hin|]).
    + intros Hex. apply Hx in Hex. rewrite Hex in H. discriminate.
    + destruct (is_excluded excl (fst e)); [|reflexivity].
      exfalso. apply H, Hx. reflexivity.
  - reflexivity.
Qed.

Lemma excluded_aliases_are_dropped_witness :
  exists rules table,
    preparePaths app_config [js "core"] = Ok table /\
    Forall2 (fun e r => build_rule e = Ok r)
            [(js "@app/*", targets ["src/app"%string])] rules /\
    Permutation rules table.
Proof.
  destruct (proj1 excluded_aliases_are_dropped app_config [js "core"]
              [(js "@app/*", targets ["src/app"%string]);
               (js "@app/core/*", targets ["src/app/core"%string])]
              [AliasRule (prefix_matcher (js "@app")) (js "@app") (js "src/app")]
              eq_refl eq_refl) as (rules & H1 & H2).
  exists rules. eexists. split; [reflexivity|]. split; [exact H1 | exact H2].
Defined.

(** C7, as stated, fails: the alias [@a/*/b] is stripped to [@a/b]; its
    matcher accepts the import path [@a/x/@a/b], in which [@a/b] occurs
    only later than the front, and the code removes that occurrence. *)
Lemma suffix_removes_later_occurrence :
  exists r,
    build_rule (js "@a/*/b", targets ["src/a"%string]) = Ok r /\
    alias r = js "@a/b" /\
    regex_test (aliasRegex r) (js "@a/x/@a/b") = true /\
    js_replace (js "@a/x/@a/b") (alias r) [] = js "@a/x/" /\
    front_remove (alias r) (js "@a/x/@a/b") = js "@a/x/@a/b".
Proof.
  eexists. split; [reflexivity|]. vm_compute. repeat split; reflexivity.
Qed.

(** C7 (amended).  For an alias made of a plain prefix (no syntax
    character of the pattern grammar) and the trailing wildcard, every
    import path the rule accepts begins with the prefix, and the suffix is
    the path with that prefix removed at the front.  For any alias the
    code removes the first occurrence of the stripped alias, wherever it
    is, and never more than that one. *)
Theorem suffix_of_prefix_alias :
  (forall prefix v r p,
     plain prefix -> build_rule (prefix ++ wildcard, v) = Ok r ->
     regex_test (aliasRegex r) p = true ->
     exists t, p = prefix ++ t /\
       js_replace p (alias r) [] = t /\ front_remove (alias r) p = t) /\
  (forall p a,
     (js_replace p a [] = p /\ forall i, ~ occurs_at a p i) \/
     (exists pre post, p = pre ++ a ++ post /\ js_replace p a [] = pre ++ post /\
        forall j, j < length pre -> ~ occurs_at a p j)).
Proof.
  split.
  - intros prefix v r p Hp Hb Ht.
    apply build_rule_prefix in Hb as [Hre ->]; [|exact Hp].
    rewrite Hre in Ht. apply prefix_matcher_test in Ht as (t & -> & _).
    exists (slash :: t). split; [reflexivity|]. split.
    + apply js_replace_prefix.
    + unfold front_remove. rewrite starts_with_app, skipn_app, Nat.sub_diag.
      rewrite skipn_all. reflexivity.
  - intros p a. destruct (indexOf a p) as [i|] eqn:E.
    + right. apply indexOf_Some in E as [(pre & post & -> & <-) Hfirst].
      exists pre, post. split; [reflexivity|]. split; [|exact Hfirst].
      apply js_replace_empty_at. exact Hfirst.
    + left. pose proof (proj1 (indexOf_None a p) E) as Hn.
      split; [apply js_replace_absent; exact Hn | exact Hn].
Qed.

Lemma suffix_of_prefix_alias_witness :
  exists t, js "@app/core/x" = js "@app" ++ t /\
    js_replace (js "@app/core/x") (js "@app") [] = t /\
    front_remove (js "@app") (js "@app/core/x") = t.
Proof.
  apply (proj1 suffix_of_prefix_alias (js "@app") (targets ["src/app"%string])
           (AliasRule (prefix_matcher (js "@app")) (js "@app") (js "src/app"))
           (js "@app/core/x")).
  - repeat constructor.
  - reflexivity.
  - reflexivity.
Defined.






(** C10.  Only the star of an alias is translated and nothing is escaped:
    an alias without a star is handed to the pattern grammar as it is,
    between [^] and [$].  So the dot of the alias [@a.b/*] is the
    any-character operator: the matcher accepts [@acb/y] for every [c] that
    is not a line terminator, for example [@aXb/y], which the alias read as
    a glob does not denote. *)
Theorem alias_dot_is_an_operator :
  (forall a, ~ In "*"%char a -> alias_source a = js "^" ++ a ++ js "$") /\
  (forall c, is_line_terminator c = false ->
     exists r, build_rule (js "@a.b/*", targets ["src/ab"%string]) = Ok r /\
       regex_test (aliasRegex r) (js "@a" ++ [c] ++ js "b/y") = true) /\
  (forall c, c <> "."%char ->
     glob_denotes (js "@a.b/*") (js "@a" ++ [c] ++ js "b/y") = false) /\
  (exists r, build_rule (js "@a.b/*", targets ["src/ab"%string]) = Ok r /\
     regex_test (aliasRegex r) (js "@aXb/y") = true /\
     glob_denotes (js "@a.b/*") (js "@aXb/y") = false).
Proof.
  split; [|split; [|split]].
  - intros a Ha. unfold alias_source. f_equal. f_equal.
    induction a as [|c a IH]; [reflexivity|]. simpl.
    destruct (ascii_eqb c "*") eqn:E.
    + apply ascii_eqb_eq in E. exfalso. apply Ha. left. exact E.
    + f_equal. apply IH. intros H. apply Ha. right. exact H.
  - intros c Hc. eexists. split; [reflexivity|].
    destruct c as [[] [] [] [] [] [] [] []];
      first [discriminate Hc | vm_compute; reflexivity].
  - intros c Hc.
    destruct c as [[] [] [] [] [] [] [] []];
      first [contradiction Hc; reflexivity | vm_compute; reflexivity].
  - eexists. split; [reflexivity|]. vm_compute. split; reflexivity.
Qed.

Lemma alias_dot_is_an_operator_witness :
  exists r, build_rule (js "@a.b/*", targets ["src/ab"%string]) = Ok r /\
    regex_test (aliasRegex r) (js "@a" ++ ["X"%char] ++ js "b/y") = true.
Proof.
  apply (proj1 (proj2 alias_dot_is_an_operator) "X"%char). reflexivity.
Defined.

(* ================================================================== *)
(** ** Further properties of the batch loop *)
(* ================================================================== *)

Section BatchProperties.
Variables (cwd : jsstring) (dry : bool) (paths : list alias_rule).











End BatchProperties.

Lemma forEach_file_dry (cwd : jsstring) (paths : list alias_rule) (l : list jsstring) :
  forall w n, files (fst (forEach_file cwd true paths l w n)) = files w.
Proof.
  induction l as [|file l IH]; intros w n; simpl; [reflexivity|].
  destruct (findMatches (files w) file paths) as [[matches content]|e|];
    [|reflexivity|reflexivity].
  destruct matches as [|m ms]; [apply IH|]. rewrite IH. reflexivity.
Qed.

(** X1.  In dry mode the batch changes no file, whatever the file list
    holds and whether it ends with a count or with an error.
    ([cliOptions.dry] starts as [true].) *)
Theorem dry_run_changes_no_file :
  forall (cwd : jsstring) (paths : list alias_rule) (fileList : list jsstring)
         (w : world),
    files (fst (replaceImports cwd true fileList paths w)) = files w.
Proof. intros cwd paths l w. apply forEach_file_dry. Qed.









(* ================================================================== *)
(** ** Further properties of the alias table *)
(* ================================================================== *)

(** The callback of [.map] reads the alias and the first target only. *)
Lemma build_rule_first_target (a : jsstring) (v : jsvalue) :
  build_rule (a, v) =
  (re <- new_RegExp (alias_source a) ;;
   match first_target v with
   | Some s => Ok (AliasRule re (js_replace a wildcard []) (js_replace s wildcard []))
   | None => Throw TypeError
   end).
Proof.
  unfold build_rule, first_target.
  destruct (new_RegExp (alias_source a)) as [re|e|]; cbn [bind]; try reflexivity.
  destruct (js_get v (js "0")) as [x|e|] eqn:E; cbn [bind].
  - destruct x; reflexivity.
  - assert (He : e = TypeError); [|subst e; reflexivity].
    destruct v; cbn [js_get] in E;
      repeat match type of E with
             | match ?x with _ => _ end = _ => destruct x
             end; congruence.
  - destruct v; cbn [js_get] in E;
      repeat match type of E with
             | match ?x with _ => _ end = _ => destruct x
             end; discriminate.
Qed.

Lemma mapM_Throw {A B : Type} (f : A -> result B) (l : list A) (err : js_error) :
  Forall (fun a => (exists b, f a = Ok b) \/ f a = Throw err) l ->
  Exists (fun a => f a = Throw err) l ->
  mapM f l = Throw err.
Proof.
  induction 1 as [|a l Ha _ IH]; intros Hex; [inversion Hex|].
  simpl. destruct Ha as [(b & Hb0)|Hb0]; rewrite Hb0; [|reflexivity]. simpl.
  inversion Hex as [a' l' Hb|a' l' Hl]; subst; [congruence|].
  rewrite (IH Hl). reflexivity.
Qed.

Lemma kept_entries_In (excl : list jsstring) (entries : list (jsstring * jsvalue))
    (e : jsstring * jsvalue) :
  In e (kept_entries excl entries) <-> In e entries /\ is_excluded excl (fst e) = false.
Proof.
  unfold kept_entries. rewrite filter_In, negb_true_iff. reflexivity.
Qed.

Lemma Forall2_length_eq {A B : Type} (R : A -> B -> Prop) (l : list A) (m : list B) :
  Forall2 R l m -> length l = length m.
Proof. induction 1; simpl; congruence. Qed.

(** X6.  When the aliases that are kept all compile, the builder returns
    a table, with one rule for each kept entry, exactly when every kept
    entry has a string as its first target; when a kept entry has none (an
    empty array, [null], a number) it throws a [TypeError].  The value of an
    excluded entry is never read: it may be anything. *)
Theorem preparePaths_first_targets :
  forall (tsconfig : jsvalue) (excludedPaths : list jsstring)
         (entries : list (jsstring * jsvalue)),
    config_paths_entries tsconfig = Ok entries ->
    Forall alias_compiles (kept_entries excludedPaths entries) ->
    (Forall (fun e => first_target (snd e) <> None) (kept_entries excludedPaths entries) ->
     exists table, preparePaths tsconfig excludedPaths = Ok table /\
       length table = length (kept_entries excludedPaths entries)) /\
    (Exists (fun e => first_target (snd e) = None) (kept_entries excludedPaths entries) ->
     preparePaths tsconfig excludedPaths = Throw TypeError).
Proof.
  intros tsconfig excl entries He Hc. unfold preparePaths. rewrite He. cbn [bind].
  split.
  - intros Ht.
    destruct (mapM_total build_rule (kept_entries excl entries)) as (rules & Hr).
    { rewrite Forall_forall in *. intros [a v] Hin.
      destruct (Hc _ Hin) as (re & Hre). specialize (Ht _ Hin). cbn [fst snd] in *.
      rewrite build_rule_first_target, Hre. cbn [bind].
      destruct (first_target v) as [s|]; [eexists; reflexivity | contradiction]. }
    rewrite Hr. cbn [bind]. eexists. split; [reflexivity|].
    rewrite (Permutation_length (js_sort_perm by_alias_length rules)).
    symmetry. exact (Forall2_length_eq _ _ _ (mapM_Ok _ _ _ Hr)).
  - intros Hex. rewrite (mapM_Throw build_rule _ TypeError); [reflexivity| |].
    + rewrite Forall_forall in *. intros [a v] Hin.
      destruct (Hc _ Hin) as (re & Hre). cbn [fst] in Hre.
      rewrite build_rule_first_target, Hre. cbn [bind].
      destruct (first_target v); [left; eexists; reflexivity | right; reflexivity].
    + rewrite Exists_exists in *. destruct Hex as ([a v] & Hin & Hn).
      exists (a, v). split; [exact Hin|].
      rewrite Forall_forall in Hc. destruct (Hc _ Hin) as (re & Hre). cbn [fst snd] in *.
      rewrite build_rule_first_target, Hre, Hn. reflexivity.
Qed.

Lemma preparePaths_first_targets_witness :
  preparePaths
    (tsconfig_with (VObject [(js "@app/*", VArray []); (js "@lib/*", VNull)]))
    [js "lib"]
  = Throw TypeError.
Proof.
  apply (preparePaths_first_targets
           (tsconfig_with (VObject [(js "@app/*", VArray []); (js "@lib/*", VNull)]))
           [js "lib"] [(js "@app/*", VArray []); (js "@lib/*", VNull)] eq_refl).
  - constructor; [|constructor]. eexists. reflexivity.
  - left. reflexivity.
Defined.

Lemma kept_entries_same (excl : list jsstring) (es1 es2 : list (jsstring * jsvalue)) :
  Forall2 same_first_target es1 es2 ->
  Forall2 same_first_target (kept_entries excl es1) (kept_entries excl es2).
Proof.
  unfold kept_entries. induction 1 as [|e1 e2 l1 l2 [Ha Ht] _ IH]; simpl; [constructor|].
  rewrite Ha. destruct (is_excluded excl (fst e2)); simpl; [exact IH|].
  constructor; [split; assumption | exact IH].
Qed.

Lemma mapM_build_rule_same (es1 es2 : list (jsstring * jsvalue)) :
  Forall2 same_first_target es1 es2 -> mapM build_rule es1 = mapM build_rule es2.
Proof.
  induction 1 as [|[a1 v1] [a2 v2] l1 l2 [Ha Ht] _ IH]; [reflexivity|].
  cbn [fst snd] in Ha, Ht. subst a2. cbn [mapM].
  rewrite !build_rule_first_target, Ht, IH. reflexivity.
Qed.

(** X7.  Only the first target of each alias is used: two mappings with
    the same aliases in the same order and the same first targets give the
    same outcome, whatever further targets they list. *)
Theorem preparePaths_uses_first_target_only :
  forall (tsconfig1 tsconfig2 : jsvalue) (excludedPaths : list jsstring)
         (entries1 entries2 : list (jsstring * jsvalue)),
    config_paths_entries tsconfig1 = Ok entries1 ->
    config_paths_entries tsconfig2 = Ok entries2 ->
    Forall2 same_first_target entries1 entries2 ->
    preparePaths tsconfig1 excludedPaths = preparePaths tsconfig2 excludedPaths.
Proof.
  intros t1 t2 excl es1 es2 H1 H2 Hsame. unfold preparePaths.
  rewrite H1, H2. cbn [bind].
  rewrite (mapM_build_rule_same _ _ (kept_entries_same excl _ _ Hsame)). reflexivity.
Qed.

Lemma preparePaths_uses_first_target_only_witness :
  preparePaths
    (tsconfig_with (VObject [(js "@app/*", targets ["src/app/*"; "lib/app/*"]%string)])) []
  = preparePaths
      (tsconfig_with (VObject [(js "@app/*", targets ["src/app/*"]%string)])) [].
Proof.
  apply (preparePaths_uses_first_target_only
           (tsconfig_with (VObject [(js "@app/*", targets ["src/app/*"; "lib/app/*"]%string)]))
           (tsconfig_with (VObject [(js "@app/*", targets ["src/app/*"]%string)])) []
           [(js "@app/*", targets ["src/app/*"; "lib/app/*"]%string)]
           [(js "@app/*", targets ["src/app/*"]%string)] eq_refl eq_refl).
  constructor; [|constructor]. split; reflexivity.
Defined.

Lemma sorted_after_first (l1 l2 : list alias_rule) (r r' : alias_rule) :
  StronglySorted longer_first (l1 ++ r :: l2) -> In r' l2 -> longer_first r r'.
Proof.
  induction l1 as [|a l1 IH]; simpl; intros Hs Hin.
  - inversion Hs as [|a' l' _ Hall]; subst. rewrite Forall_forall in Hall. auto.
  - inversion Hs; subst. auto.
Qed.

(** X8.  The most specific alias wins: in a table the builder returned,
    the rule the scanner picks for an import path has an alias at least as
    long as that of any other rule whose matcher accepts the path. *)
Theorem first_rule_is_longest :
  forall (tsconfig : jsvalue) (excludedPaths : list jsstring)
         (table : list alias_rule) (p : jsstring) (r r' : alias_rule),
    preparePaths tsconfig excludedPaths = Ok table ->
    first_rule table p = Some r ->
    In r' table -> regex_test (aliasRegex r') p = true ->
    length (alias r') <= length (alias r).
Proof.
  intros tsconfig excl table p r r' Ht Hr Hin Hacc.
  apply preparePaths_Ok in Ht as (entries & rules & _ & _ & ->).
  pose proof (js_sort_sorted rules) as Hs.
  apply first_rule_Some in Hr as (before & after & E & _ & Hb).
  rewrite E in Hs, Hin. apply in_app_or in Hin as [Hin|[<-|Hin]].
  - rewrite Forall_forall in Hb. rewrite (Hb _ Hin) in Hacc. discriminate.
  - apply Nat.le_refl.
  - exact (sorted_after_first _ _ _ _ Hs Hin).
Qed.

Lemma first_rule_is_longest_witness :
  length (js "@app") <= length (js "@app/core").
Proof.
  apply (first_rule_is_longest app_config []
           [AliasRule (prefix_matcher (js "@app/core")) (js "@app/core") (js "src/app/core");
            app_rule]
           (js "@app/core/x")
           (AliasRule (prefix_matcher (js "@app/core")) (js "@app/core") (js "src/app/core"))
           app_rule).
  - reflexivity.
  - reflexivity.
  - right. left. reflexivity.
  - reflexivity.
Defined.

(* ================================================================== *)
(** ** Further properties of the scanner and the rewriter *)
(* ================================================================== *)

Lemma regex_occurrences_ordered (r : regex) :
  forall fuel p s,
    Forall (fun o => p <= occ_index o) (regex_occurrences r fuel p s) /\
    StronglySorted follows (regex_occurrences r fuel p s).
Proof.
  induction fuel as [|fuel IH]; intros p s; simpl; [split; constructor|].
  destruct (regex_exec r p s) as [o|] eqn:E; [|split; constructor].
  pose proof (regex_exec_Some _ _ _ _ E) as Hf. fold (found_in r s p o) in Hf.
  apply found_in_end in Hf as (pre & t & _ & Hp & Hi & Ht).
  assert (Hrest : forall l q, pos (occ_end o) <= q ->
            Forall (fun o' => q <= occ_index o') l /\ StronglySorted follows l ->
            Forall (fun o' => p <= occ_index o') (o :: l) /\
            StronglySorted follows (o :: l)).
  { intros l q Hq [Hall Hs]. split.
    - constructor; [lia|]. eapply Forall_impl; [|exact Hall].
      intros o' Ho'. simpl in Ho'. lia.
    - constructor; [exact Hs|]. eapply Forall_impl; [|exact Hall].
      intros o' Ho'. unfold follows. simpl in Ho'. rewrite Ht. lia. }
  destruct (occ_index o <? pos (occ_end o)).
  - apply (Hrest _ (pos (occ_end o))); [lia | apply IH].
  - destruct (rest (occ_end o)) as [|c u].
    + apply (Hrest [] (pos (occ_end o))); [lia | split; constructor].
    + apply (Hrest _ (S (pos (occ_end o)))); [lia | apply IH].
Qed.

(** X9.  The scanner finds the statements of a text from left to right
    and they never overlap: each occurrence lies in the text at its index
    and begins no earlier than the previous one ends.  The matches are
    recorded in that order. *)
Theorem occurrences_in_order :
  forall (paths : list alias_rule) (content : jsstring),
    StronglySorted follows (regex_matchAll importRegex content) /\
    (forall o, In o (regex_matchAll importRegex content) ->
       occurs_at (occ_text o) content (occ_index o)) /\
    map match_text (scan_content paths content)
    = map occ_text
        (filter (fun o => match first_rule paths (capture1 o) with
                          | Some _ => true
                          | None => false
                          end)
                (regex_matchAll importRegex content)).
Proof.
  intros paths content. split; [|split].
  - apply regex_occurrences_ordered.
  - intros o Ho. apply regex_occurrences_found, found_in_end in Ho
      as (pre & t & Hc & _ & Hi & Ht).
    exists pre, (rest (occ_end o)). rewrite Ht. split; [exact Hc | simpl in Hi; lia].
  - unfold scan_content.
    induction (regex_matchAll importRegex content) as [|o l IH]; [reflexivity|].
    cbn [flat_map filter]. rewrite map_app, IH. unfold scan_callback.
    destruct (first_rule paths (capture1 o)); reflexivity.
Qed.

Lemma occurrences_in_order_witness :
  occurs_at (js "import x from '@app/x';") (js "a; import x from '@app/x';") 3.
Proof.
  apply (proj1 (proj2 (occurrences_in_order [] (js "a; import x from '@app/x';")))
           (Occurrence 3 (js "import x from '@app/x';") [js "@app/x"]
                       (MState 26 [] [js "@app/x"]))).
  vm_compute. left. reflexivity.
Defined.

Lemma get_substitution_no_dollar (m b a repl : jsstring) :
  has_dollar repl = false -> get_substitution m b a repl = repl.
Proof.
  induction repl as [|c r IH]; [reflexivity|].
  unfold has_dollar. cbn [existsb get_substitution]. intros H.
  apply orb_false_iff in H as [Hc Hr].
  assert (E : ascii_eqb c "$" = false).
  { destruct (ascii_eqb c "$") eqn:E; [|reflexivity].
    apply ascii_eqb_eq in E. subst c. discriminate. }
  rewrite E. f_equal. apply IH. exact Hr.
Qed.

(** The replacement of a first occurrence by a text without dollar sign. *)
Lemma js_replace_at (pre pat post repl : jsstring) :
  indexOf pat (pre ++ pat ++ post) = Some (length pre) ->
  has_dollar repl = false ->
  js_replace (pre ++ pat ++ post) pat repl = pre ++ repl ++ post.
Proof.
  intros Hi Hd. unfold js_replace. rewrite Hi.
  rewrite get_substitution_no_dollar by exact Hd.
  rewrite firstn_app, Nat.sub_diag, firstn_all. simpl. rewrite app_nil_r.
  f_equal. f_equal. rewrite skipn_app.
  replace (length pre + length pat - length pre) with (length pat) by lia.
  rewrite (skipn_all2 pre) by lia. simpl.
  rewrite skipn_app, Nat.sub_diag, skipn_all. reflexivity.
Qed.

Lemma has_dollar_app (s t : jsstring) :
  has_dollar (s ++ t) = has_dollar s || has_dollar t.
Proof. unfold has_dollar. apply existsb_app. Qed.

(** X10.  A file with one recorded match is rewritten in the literal and
    nowhere else, provided that the path text does not occur in the
    statement before the literal, that the statement does not occur in the
    file before its own place, and that neither the statement nor the new
    path holds a dollar sign. *)
Theorem replaceAliases_changes_the_literal_only :
  forall (cwd file pre head p tail post a ap : jsstring),
    let stmt := head ++ p ++ tail in
    let content := pre ++ stmt ++ post in
    let m := ImportMatch stmt a p ap in
    indexOf p stmt = Some (length head) ->
    indexOf stmt content = Some (length pre) ->
    has_dollar head = false -> has_dollar tail = false ->
    has_dollar (new_import_path cwd file m) = false ->
    replaceAliases cwd [m] content file
    = pre ++ (head ++ new_import_path cwd file m ++ tail) ++ post.
Proof.
  intros cwd file pre head p tail post a ap stmt content m Hp Hs Hh Ht Hn.
  unfold replaceAliases. cbn [fold_left]. unfold replace_one.
  change (match_text m) with stmt. change (importPath m) with p.
  assert (E : js_replace stmt p (new_import_path cwd file m)
              = head ++ new_import_path cwd file m ++ tail).
  { unfold stmt. apply js_replace_at; assumption. }
  rewrite E. unfold content. apply js_replace_at; [exact Hs|].
  rewrite !has_dollar_app, Hh, Hn, Ht. reflexivity.
Qed.

Lemma replaceAliases_changes_the_literal_only_witness :
  replaceAliases project_dir
    [ImportMatch (js "import x from '@app/x';") (js "@app") (js "@app/x") (js "src/app")]
    (js "a; import x from '@app/x'; b;") home_ts
  = js "a; import x from '../app/x'; b;".
Proof.
  apply (replaceAliases_changes_the_literal_only project_dir home_ts
           (js "a; ") (js "import x from '") (js "@app/x") (js "';") (js " b;")
           (js "@app") (js "src/app")); reflexivity.
Defined.

Lemma build_rule_plain_prefix (e : jsstring * jsvalue) (r : alias_rule) :
  plain_prefix_entry e -> build_rule e = Ok r -> plain_prefix_rule r.
Proof.
  destruct e as [a v]. intros (prefix & Ha & Hp) Hb. cbn [fst] in Ha. subst a.
  apply build_rule_prefix in Hb as [Hre Hal]; [|exact Hp].
  unfold plain_prefix_rule. rewrite Hal, Hre. split; [exact Hp | reflexivity].
Qed.

Lemma preparePaths_plain_prefix (tsconfig : jsvalue) (excl : list jsstring)
    (entries : list (jsstring * jsvalue)) (table : list alias_rule) :
  config_paths_entries tsconfig = Ok entries ->
  Forall plain_prefix_entry entries ->
  preparePaths tsconfig excl = Ok table ->
  Forall plain_prefix_rule table.
Proof.
  intros He Hpp Ht.
  apply preparePaths_Ok in Ht as (entries' & rules & He' & Hr & ->).
  rewrite He in He'. injection He' as <-.
  apply (Permutation_Forall (Permutation_sym (js_sort_perm by_alias_length rules))).
  assert (Hk : Forall plain_prefix_entry (kept_entries excl entries)).
  { rewrite Forall_forall in *. intros e Hin. apply Hpp.
    apply kept_entries_In in Hin as [Hin _]. exact Hin. }
  clear He. induction Hr as [|e r l rs Hb _ IH]; [constructor|].
  inversion Hk; subst. constructor; [|apply IH; assumption].
  eapply build_rule_plain_prefix; eassumption.
Qed.

(** X11.  When every alias of the mapping is a plain prefix followed by
    the wildcard, the scanner picks a rule for an import path only if the
    path begins with the rule's alias and a slash.  So a relative import, a
    path that begins with a dot, is accepted by no rule and is never
    recorded. *)
Theorem plain_aliases_leave_relative_imports :
  forall (tsconfig : jsvalue) (excludedPaths : list jsstring)
         (entries : list (jsstring * jsvalue)) (table : list alias_rule),
    config_paths_entries tsconfig = Ok entries ->
    Forall plain_prefix_entry entries ->
    preparePaths tsconfig excludedPaths = Ok table ->
    (forall p r, first_rule table p = Some r ->
       starts_with (alias r ++ [slash]) p = true) /\
    (forall p, starts_with (js ".") p = true -> first_rule table p = None) /\
    (forall o, starts_with (js ".") (capture1 o) = true -> scan_callback table o = []).
Proof.
  intros tsconfig excl entries table He Hpp Ht.
  pose proof (preparePaths_plain_prefix _ _ _ _ He Hpp Ht) as Hrules.
  assert (H1 : forall p r, first_rule table p = Some r ->
                 starts_with (alias r ++ [slash]) p = true).
  { intros p r Hr. apply first_rule_Some in Hr as (before & after & -> & Hacc & _).
    apply Forall_app in Hrules as [_ Hrules]. inversion Hrules as [|r' l' [_ Hre] _]; subst.
    rewrite Hre in Hacc. apply prefix_matcher_test in Hacc as (t & -> & _).
    apply starts_with_iff. exists t. rewrite <- app_assoc. reflexivity. }
  assert (H2 : forall p, starts_with (js ".") p = true -> first_rule table p = None).
  { intros p Hdot. destruct (first_rule table p) as [r|] eqn:Hr; [|reflexivity].
    exfalso. pose proof (H1 _ _ Hr) as Hs.
    apply first_rule_Some in Hr as (before & after & -> & _ & _).
    apply Forall_app in Hrules as [_ Hrules].
    inversion Hrules as [|r' l' [Hplain _] _]; subst.
    apply starts_with_iff in Hs as (t & ->). apply starts_with_iff in Hdot as (u & Hu).
    destruct (alias r) as [|c al].
    - simpl in Hu. discriminate.
    - simpl in Hu. injection Hu as -> _. inversion Hplain; subst. discriminate. }
  split; [exact H1|]. split; [exact H2|].
  intros o Ho. unfold scan_callback. rewrite (H2 _ Ho). reflexivity.
Qed.

Lemma plain_aliases_leave_relative_imports_witness :
  first_rule [AliasRule (prefix_matcher (js "@app/core")) (js "@app/core") (js "src/app/core");
              app_rule] (js "./core/x") = None.
Proof.
  apply (plain_aliases_leave_relative_imports app_config []
           [(js "@app/*", targets ["src/app"%string]);
            (js "@app/core/*", targets ["src/app/core"%string])]
           [AliasRule (prefix_matcher (js "@app/core")) (js "@app/core") (js "src/app/core");
            app_rule]).
  - reflexivity.
  - constructor; [|constructor; [|constructor]].
    + exists (js "@app"). split; [reflexivity | repeat constructor].
    + exists (js "@app/core"). split; [reflexivity | repeat constructor].
  - reflexivity.
  - reflexivity.
Defined.

(** X12.  For a file that lies in the very directory an alias stands for,
    the new path is not relative: the base is empty, and joining it with
    the suffix, which begins with a slash, gives a path that begins with a
    slash. *)
Theorem file_in_target_directory_gets_rooted_path :
  forall (cwd file t : jsstring) (m : import_match),
    importPath m = match_alias m ++ slash :: t ->
    path_resolve cwd (path_dirname file) = path_resolve cwd (aliasPath m) ->
    path_relative cwd (path_dirname file) (aliasPath m) = [] /\
    starts_with [slash] (new_import_path cwd file m) = true.
Proof.
  intros cwd file t m Hp Hsame.
  assert (Hrel : path_relative cwd (path_dirname file) (aliasPath m) = []).
  { unfold path_relative. rewrite Hsame, (proj2 (str_eqb_eq _ _) eq_refl).
    destruct (str_eqb (path_dirname file) (aliasPath m)); reflexivity. }
  split; [exact Hrel|].
  unfold new_import_path. rewrite Hrel, Hp, js_replace_prefix.
  unfold path_join, path_normalize.
  change (is_absolute (slash :: t)) with true. cbn [negb].
  destruct (normalizeString (slash :: t) false); [reflexivity|].
  destruct (ends_with_slash (slash :: t)); reflexivity.
Qed.

Lemma file_in_target_directory_gets_rooted_path_witness :
  starts_with [slash]
    (new_import_path project_dir (js "src/components/index.ts")
       (ImportMatch (button_import "'" "@components/button") (js "@components")
                    (js "@components/button") (js "src/components"))) = true.
Proof.
  apply (file_in_target_directory_gets_rooted_path project_dir
           (js "src/components/index.ts") (js "button")
           (ImportMatch (button_import "'" "@components/button") (js "@components")
                        (js "@components/button") (js "src/components")));
    reflexivity.
Defined.

(* ================================================================== *)
(** ** Properties of the command line *)
(* ================================================================== *)

Lemma path_normalize_nonempty (p : jsstring) : path_normalize p <> [].
Proof.
  unfold path_normalize. destruct p as [|c p]; [discriminate|].
  destruct (normalizeString (c :: p) (negb (is_absolute (c :: p)))) as [|d q].
  - destruct (is_absolute (c :: p)); [discriminate|].
    destruct (ends_with_slash (c :: p)); discriminate.
  - destruct (is_absolute (c :: p)); [discriminate|].
    destruct (ends_with_slash (c :: p)); discriminate.
Qed.

Lemma path_join_nonempty (a b : jsstring) : path_join a b <> [].
Proof.
  unfold path_join. destruct a, b; try apply path_normalize_nonempty. discriminate.
Qed.

Lemma split_on_nonempty (sep : ascii) (s : jsstring) : split_on sep s <> [].
Proof.
  destruct s as [|c s]; simpl; [discriminate|].
  destruct (ascii_eqb c sep); [discriminate|].
  destruct (split_on sep s); discriminate.
Qed.

Lemma split_on_no_sep (sep : ascii) (s : jsstring) :
  Forall (fun piece => ~ In sep piece) (split_on sep s).
Proof.
  induction s as [|c s IH]; simpl.
  - constructor; [intros [] | constructor].
  - destruct (ascii_eqb c sep) eqn:E.
    + constructor; [intros [] | exact IH].
    + apply ascii_eqb_neq in E. destruct (split_on sep s) as [|piece pieces].
      * constructor; [|constructor]. intros [H|[]]. congruence.
      * inversion IH; subst. constructor; [|assumption].
        intros [H|H]; [congruence | contradiction].
Qed.

(** The pieces around a separator. *)
Lemma split_on_app (sep : ascii) (pre post : jsstring) :
  split_on sep (pre ++ sep :: post) = split_on sep pre ++ split_on sep post.
Proof.
  induction pre as [|c pre IH]; simpl.
  - rewrite ascii_eqb_refl. reflexivity.
  - destruct (ascii_eqb c sep); [rewrite IH; reflexivity|].
    rewrite IH. pose proof (split_on_nonempty sep pre) as Hne.
    destruct (split_on sep pre) as [|piece pieces]; [contradiction | reflexivity].
Qed.

(** A separator at the front, at the end or doubled leaves an empty piece. *)
Lemma split_on_empty_piece (sep : ascii) (pre post : jsstring) :
  pre = [] \/ post = [] \/ starts_with [sep] post = true ->
  In [] (split_on sep (pre ++ sep :: post)).
Proof.
  intros H. rewrite split_on_app. apply in_or_app.
  destruct H as [->|[->|H]].
  - left. left. reflexivity.
  - right. left. reflexivity.
  - right. destruct post as [|c post]; [discriminate|]. simpl in H.
    rewrite andb_true_r in H. simpl. rewrite ascii_eqb_eq in H. subst c.
    rewrite ascii_eqb_refl. left. reflexivity.
Qed.

(** An empty text among the exclusions excludes every alias. *)
Lemma empty_exclusion_excludes_all (excl : list jsstring)
    (entries : list (jsstring * jsvalue)) :
  In [] excl -> kept_entries excl entries = [].
Proof.
  intros Hin. unfold kept_entries. induction entries as [|e entries IH]; [reflexivity|].
  simpl. rewrite IH.
  assert (E : is_excluded excl (fst e) = true); [|rewrite E; reflexivity].
  unfold is_excluded. apply existsb_exists. exists []. split; [exact Hin|].
  apply includes_iff. exists [], (fst e). reflexivity.
Qed.

Section CommandLineProperties.
Variables (cwd : jsstring) (existsSync hasMagic : jsstring -> bool).

Lemma getGivenOrDefaultFileGlob_Some (pattern : option jsstring) (g : jsstring) :
  getGivenOrDefaultFileGlob hasMagic pattern = Some g ->
  pattern = Some g /\ hasMagic g = true /\ g <> [].
Proof.
  unfold getGivenOrDefaultFileGlob. destruct pattern as [[|c q]|]; try discriminate.
  destruct (hasMagic (c :: q)) eqn:E; [|discriminate].
  intros [= <-]. repeat split; [exact E | discriminate].
Qed.

Lemma getGivenOrDefaultTsConfigPath_Some (args : option jsstring) (p : jsstring) :
  getGivenOrDefaultTsConfigPath cwd existsSync args = Some p ->
  existsSync p = true /\ p <> [].
Proof.
  unfold getGivenOrDefaultTsConfigPath.
  assert (Hdef : match find existsSync
                         [path_join cwd (js "tsconfig.json");
                          path_join cwd (js "tsconfig.base.json")] with
                 | Some (c :: q) => Some (c :: q)
                 | _ => None
                 end = Some p -> existsSync p = true /\ p <> []).
  { destruct (find existsSync _) as [[|c q]|] eqn:E; try discriminate.
    intros [= <-]. apply find_some in E as [_ E]. split; [exact E | discriminate]. }
  destruct args as [[|c q]|]; [exact Hdef| |exact Hdef].
  destruct (existsSync (c :: q)) eqn:E; [|discriminate].
  intros [= <-]. split; [exact E | discriminate].
Qed.

Lemma init_Returns (argv : arguments) (o : options) :
  init cwd existsSync hasMagic argv = Returns o ->
  getGivenOrDefaultTsConfigPath cwd existsSync (arg_tsconfig argv) = Some (tsconfigPath o) /\
  getGivenOrDefaultFileGlob hasMagic (arg_target argv) = Some (targetGlob o) /\
  excludeGlob o = getGivenOrDefaultFileGlob hasMagic (arg_exclude argv) /\
  excludeAlias o = match arg_excludeAlias argv with
                   | Some (c :: a) => split_on "," (c :: a)
                   | _ => []
                   end /\
  verbose o = arg_verbose argv /\ dry o = arg_dry argv.
Proof.
  unfold init.
  destruct (getGivenOrDefaultTsConfigPath cwd existsSync (arg_tsconfig argv))
    as [[|c t]|]; try discriminate.
  destruct (getGivenOrDefaultFileGlob hasMagic (arg_target argv))
    as [[|d g]|]; try discriminate.
  intros [= <-]. cbn. repeat split.
Qed.
End CommandLineProperties.

(** X13.  The configuration path [getGivenOrDefaultTsConfigPath] returns
    always exists.  A given path that does not exist gives no path at all:
    the default paths are not tried.  Without a given path,
    [tsconfig.json] in the working directory is taken when it exists,
    before [tsconfig.base.json]. *)
Theorem tsconfig_path_resolution :
  forall (cwd : jsstring) (existsSync : jsstring -> bool) (args : option jsstring),
    (forall p, getGivenOrDefaultTsConfigPath cwd existsSync args = Some p ->
       existsSync p = true) /\
    (forall c q, args = Some (c :: q) -> existsSync (c :: q) = false ->
       getGivenOrDefaultTsConfigPath cwd existsSync args = None) /\
    (args = None \/ args = Some [] ->
     existsSync (path_join cwd (js "tsconfig.json")) = true ->
     getGivenOrDefaultTsConfigPath cwd existsSync args
     = Some (path_join cwd (js "tsconfig.json"))).
Proof.
  intros cwd existsSync args. split; [|split].
  - intros p H. apply (getGivenOrDefaultTsConfigPath_Some _ _ _ _ H).
  - intros c q -> H. unfold getGivenOrDefaultTsConfigPath. rewrite H. reflexivity.
  - intros Hargs H. unfold getGivenOrDefaultTsConfigPath.
    pose proof (path_join_nonempty cwd (js "tsconfig.json")) as Hne.
    destruct Hargs as [->| ->]; cbn [find]; rewrite H;
      destruct (path_join cwd (js "tsconfig.json")); try contradiction; reflexivity.
Qed.

Lemma tsconfig_path_resolution_witness :
  getGivenOrDefaultTsConfigPath project_dir sample_exists (Some (js "tsconfig.app.json"))
  = None.
Proof.
  apply (proj1 (proj2 (tsconfig_path_resolution project_dir sample_exists
                         (Some (js "tsconfig.app.json"))))
           "t"%char (js "sconfig.app.json")); reflexivity.
Defined.

(** X14.  When [init] returns, the configuration path it returns exists,
    the target pattern is the one given and has glob magic, no excluded
    alias holds a comma, and the exclude pattern is the given one when
    that has glob magic and is missing otherwise: an exclude pattern
    without magic is dropped and does not stop the run.  When [init] ends
    the process, the exit code is 1 and the configuration path or the
    target pattern was not found. *)
Theorem init_outcome :
  forall (cwd : jsstring) (existsSync hasMagic : jsstring -> bool) (argv : arguments),
    (forall o, init cwd existsSync hasMagic argv = Returns o ->
       existsSync (tsconfigPath o) = true /\
       arg_target argv = Some (targetGlob o) /\ hasMagic (targetGlob o) = true /\
       (forall a, In a (excludeAlias o) -> ~ In ","%char a) /\
       (forall g, excludeGlob o = Some g -> arg_exclude argv = Some g /\ hasMagic g = true) /\
       (forall g, arg_exclude argv = Some g -> hasMagic g = false -> excludeGlob o = None)) /\
    (forall code, init cwd existsSync hasMagic argv = Exits code ->
       code = 1 /\
       (getGivenOrDefaultTsConfigPath cwd existsSync (arg_tsconfig argv) = None \/
        getGivenOrDefaultFileGlob hasMagic (arg_target argv) = None)).
Proof.
  intros cwd existsSync hasMagic argv. split.
  - intros o H. apply init_Returns in H as (Ht & Hg & He & Ha & _ & _).
    apply getGivenOrDefaultTsConfigPath_Some in Ht as [Ht _].
    apply getGivenOrDefaultFileGlob_Some in Hg as (Hg1 & Hg2 & _).
    repeat split; try assumption.
    + intros a Hin. rewrite Ha in Hin.
      destruct (arg_excludeAlias argv) as [[|c s]|]; try contradiction.
      pose proof (split_on_no_sep "," (c :: s)) as Hall.
      rewrite Forall_forall in Hall. exact (Hall a Hin).
    + rewrite He in H. apply getGivenOrDefaultFileGlob_Some in H. tauto.
    + rewrite He in H. apply getGivenOrDefaultFileGlob_Some in H. tauto.
    + intros g Hg Hm. rewrite He, Hg. unfold getGivenOrDefaultFileGlob.
      destruct g; [reflexivity|]. rewrite Hm. reflexivity.
  - intros code H. unfold init in H.
    pose proof (getGivenOrDefaultTsConfigPath_Some cwd existsSync (arg_tsconfig argv)) as Ht.
    pose proof (getGivenOrDefaultFileGlob_Some hasMagic (arg_target argv)) as Hg.
    destruct (getGivenOrDefaultTsConfigPath cwd existsSync (arg_tsconfig argv))
      as [[|c t]|].
    + destruct (Ht [] eq_refl) as [_ Hne]. contradiction.
    + destruct (getGivenOrDefaultFileGlob hasMagic (arg_target argv)) as [[|d g]|].
      * destruct (Hg [] eq_refl) as (_ & _ & Hne). contradiction.
      * discriminate.
      * injection H as <-. auto.
    + injection H as <-. auto.
Qed.

Lemma init_outcome_witness :
  excludeGlob
    (Options (js "/proj/tsconfig.json") (js "src/**/*.ts") [] None None (Some true)) = None.
Proof.
  destruct (proj1 (init_outcome project_dir sample_exists sample_magic
                     (Argv None (Some (js "src/**/*.ts")) (Some (js "node_modules"))
                                 None None (Some true)))
              (Options (js "/proj/tsconfig.json") (js "src/**/*.ts") [] None None (Some true))
              eq_refl) as (_ & _ & _ & _ & _ & H).
  apply (H (js "node_modules")); reflexivity.
Defined.

(** X15.  A comma at the front or at the end of the exclusion argument, or
    a doubled comma, puts an empty text in the exclusion list; every alias
    contains the empty text, so every alias is excluded and the table is
    empty. *)
Theorem stray_comma_excludes_every_alias :
  forall (cwd : jsstring) (existsSync hasMagic : jsstring -> bool)
         (argv : arguments) (o : options) (pre post : jsstring)
         (tsconfig : jsvalue) (entries : list (jsstring * jsvalue)),
    init cwd existsSync hasMagic argv = Returns o ->
    arg_excludeAlias argv = Some (pre ++ ","%char :: post) ->
    pre = [] \/ post = [] \/ starts_with (js ",") post = true ->
    config_paths_entries tsconfig = Ok entries ->
    In [] (excludeAlias o) /\
    preparePaths tsconfig (excludeAlias o) = Ok [].
Proof.
  intros cwd existsSync hasMagic argv o pre post tsconfig entries Hinit Harg Hc He.
  apply init_Returns in Hinit as (_ & _ & _ & Ha & _).
  rewrite Harg in Ha.
  assert (Hin : In [] (excludeAlias o)).
  { rewrite Ha. destruct (pre ++ ","%char :: post) as [|c s] eqn:E;
      [destruct pre; discriminate|].
    rewrite <- E. apply split_on_empty_piece. exact Hc. }
  split; [exact Hin|].
  unfold preparePaths. rewrite He. cbn [bind].
  rewrite (empty_exclusion_excludes_all _ _ Hin). reflexivity.
Qed.

Lemma stray_comma_excludes_every_alias_witness :
  preparePaths app_config [js "@lib"; []] = Ok [].
Proof.
  apply (stray_comma_excludes_every_alias project_dir sample_exists sample_magic
           (Argv None (Some (js "**/*.ts")) None (Some (js "@lib,")) None None)
           (Options (js "/proj/tsconfig.json") (js "**/*.ts") [js "@lib"; []] None None None)
           (js "@lib") [] app_config
           [(js "@app/*", targets ["src/app"%string]);
            (js "@app/core/*", targets ["src/app/core"%string])]
           eq_refl eq_refl).
  - right. left. reflexivity.
  - reflexivity.
Defined.
